(** * async-file-copier: a shallow embedding of [processing.py] and [cli.py]

    The development follows the layout of the program:

    - Python strings ([str]) as lists of Unicode code points, with the
      pieces of the runtime that [to_snake_case] calls ([str.replace],
      [re.sub] on the three patterns used, [str.lower]);
    - [pathlib] paths (POSIX flavour) as a root marker and a list of
      components, with [/], [name], [parent] and [with_suffix];
    - [PathMapping] and [DirectoriesStructure] (insertion-ordered dicts);
    - a file system as a tree of files and directories, and the trace
      of what a run logs and writes;
    - the coroutines [copy_file] and [write_to_file] as small state
      machines, and [asyncio.gather] as their interleaving under a
      schedule;
    - [collect_dirs_structure], [copy_code_and_task_files],
      [create_mod_files] and the driver [run];
    - the properties of the specification, one theorem each. *)

From Stdlib Require Import NArith List Ascii String Permutation Sorted Lia.
From stdpp Require Import base decidable option list gmap sorting.

Local Open Scope N_scope.

(** ** Python strings *)

(** A Python [str] is a sequence of code points. *)
Abbreviation str := (list N) (only parsing).

(** String literals of the source, written in ASCII. *)
Definition lit (s : string) : str :=
  List.map N_of_ascii (list_ascii_of_string s).
Arguments lit s%_string.

(** [sep.join(xs)] *)
Fixpoint join (sep : str) (xs : list str) : str :=
  match xs with
  | [] => []
  | [x] => x
  | x :: rest => x ++ sep ++ join sep rest
  end.

(** [a < b] on [str]: lexicographic comparison of code points. *)
Fixpoint str_lt (a b : str) : bool :=
  match a, b with
  | _, [] => false
  | [], _ :: _ => true
  | x :: a', y :: b' => (x <? y) || ((x =? y) && str_lt a' b')
  end.

(** [s.upper()] is only used by [create_main_file], which the driver has
    commented out; it is not modelled. *)

(** ** The Unicode tables behind [\s], [\w] and [str.lower]

    On code points below 128 the three classifications are fixed small
    tables, written out here.  Above 128 they are read from the Unicode
    character database shipped with the interpreter; the development is
    parametric in that part, through the class [UnicodeDB]. *)

Definition in_range (lo hi c : N) : bool := (lo <=? c) && (c <=? hi).

(** ASCII white space as [str.isspace] and [\s] see it: TAB, LF, VT, FF,
    CR, the four separators FS, GS, RS, US, and SPACE. *)
Definition ascii_isspace (c : N) : bool :=
  in_range 9 13 c || in_range 28 32 c.

(** ASCII alphanumerics: [0-9A-Za-z]. *)
Definition ascii_isalnum (c : N) : bool :=
  in_range 48 57 c || in_range 65 90 c || in_range 97 122 c.

(** ASCII lower-casing: [A-Z] are shifted by 32. *)
Definition ascii_lower (c : N) : N :=
  if in_range 65 90 c then c + 32 else c.

(** The non-ASCII part of the tables.  [uni_lower pre post c] is the
    lower-casing of the code point [c] standing between [pre] (the text
    before it, nearest character first) and [post] (the text after it):
    the context matters for GREEK CAPITAL LETTER SIGMA only.  The last
    field records that lower-casing a non-ASCII code point yields no ASCII
    character other than a lower-case letter (as in U+212A KELVIN SIGN,
    which becomes [k]). *)
Class UnicodeDB := {
  uni_isspace : N → bool;
  uni_isalnum : N → bool;
  uni_lower : str → str → N → str;
  uni_lower_ascii : ∀ pre post c d,
    128 ≤ c → d ∈ uni_lower pre post c → d < 128 → 97 ≤ d ≤ 122
}.

(** An excerpt of the database, enough for the examples below:
    U+0130 LATIN CAPITAL LETTER I WITH DOT ABOVE is a letter whose
    lower-casing is the two code points U+0069 U+0307; U+0307 COMBINING
    DOT ABOVE is a mark (not alphanumeric, not white space, caseless);
    U+00A0 NO-BREAK SPACE is white space.  Every other non-ASCII code
    point is left unclassified (caseless, neither space nor letter), so
    only statements about the listed code points are drawn from it. *)
Definition excerpt_isspace (c : N) : bool := c =? 160.
Definition excerpt_isalnum (c : N) : bool := c =? 304.
Definition excerpt_lower (pre post : str) (c : N) : str :=
  if c =? 304 then [105; 775] else [c].

Lemma excerpt_lower_ascii pre post c d :
  128 ≤ c → d ∈ excerpt_lower pre post c → d < 128 → 97 ≤ d ≤ 122.
Proof.
  unfold excerpt_lower. intros Hc Hd Hlt.
  destruct (c =? 304).
  - apply elem_of_cons in Hd as [->|Hd]; [lia|].
    apply elem_of_cons in Hd as [->|Hd]; [lia|].
    by apply elem_of_nil in Hd.
  - apply list_elem_of_singleton in Hd as ->. lia.
Qed.

Definition ucd_excerpt : UnicodeDB :=
  {| uni_isspace := excerpt_isspace;
     uni_isalnum := excerpt_isalnum;
     uni_lower := excerpt_lower;
     uni_lower_ascii := excerpt_lower_ascii |}.

Section Normalizer.
Context {db : UnicodeDB}.

(** [\s] *)
Definition re_space (c : N) : bool :=
  if c <? 128 then ascii_isspace c else uni_isspace c.

(** [\w]: alphanumeric or underscore *)
Definition re_word (c : N) : bool :=
  (c =? 95) || (if c <? 128 then ascii_isalnum c else uni_isalnum c).

(** [-] *)
Definition is_hyphen (c : N) : bool := c =? 45.

(** [s.replace(",", "")] *)
Definition remove_commas (s : str) : str :=
  List.filter (λ c, negb (c =? 44)) s.

(** [re.sub(p+, repl, s)] for a one-character class [p]: every maximal
    run of characters in the class is replaced by [repl].  [in_run]
    tells whether the previous character was in the class. *)
Fixpoint sub_runs (p : N → bool) (repl : str) (in_run : bool) (s : str) : str :=
  match s with
  | [] => []
  | c :: s' =>
      if p c then (if in_run then [] else repl) ++ sub_runs p repl true s'
      else c :: sub_runs p repl false s'
  end.

(** [re.sub(r"[^\w_]", "", s)]: the characters outside the class
    [\w] ∪ [{_}] are deleted. *)
Definition strip_non_word (s : str) : str :=
  List.filter (λ c, re_word c || (c =? 95)) s.

(** [s.lower()] *)
Definition lower_at (pre post : str) (c : N) : str :=
  if c <? 128 then [ascii_lower c] else uni_lower pre post c.

Fixpoint lower_from (pre : str) (s : str) : str :=
  match s with
  | [] => []
  | c :: s' => lower_at pre s' c ++ lower_from (c :: pre) s'
  end.

Definition lower (s : str) : str := lower_from [] s.

Definition to_snake_case (name : str) : str :=
  let s := remove_commas name in
  let s := sub_runs re_space (lit "_") false s in
  let s := sub_runs is_hyphen (lit "_") false s in
  let s := strip_non_word s in
  let s := lower s in
  s.
End Normalizer.

(** ** Results and exceptions *)

Inductive exn :=
  | ValueError
  | FileNotFoundError
  | FileExistsError
  | NotADirectoryError
  | IsADirectoryError.

Inductive result (A : Type) :=
  | Ok (a : A)
  | Raise (e : exn).
Arguments Ok {A} a.
Arguments Raise {A} e.

#[global] Instance result_bind : MBind result := λ A B k r,
  match r with
  | Ok a => k a
  | Raise e => Raise e
  end.

(** A [for] loop whose body may raise, threading an accumulator. *)
Fixpoint for_each {A S} (body : S → A → result S) (acc : S) (xs : list A) : result S :=
  match xs with
  | [] => Ok acc
  | x :: xs' => acc' ← body acc x; for_each body acc' xs'
  end.

(** ** pathlib paths (POSIX flavour)

    A path is its root ([""], ["/"] or ["//"]) and the list of its
    components; the components are never empty and never ["."]. *)

Inductive Root := Relative | Slash | DoubleSlash.

Record Path := mkPath { root : Root; parts : list str }.

#[global] Instance Root_eq_dec : EqDecision Root.
Proof. solve_decision. Defined.

#[global] Instance Path_eq_dec : EqDecision Path.
Proof. solve_decision. Defined.

Definition root_code (r : Root) : nat :=
  match r with Relative => 0%nat | Slash => 1%nat | DoubleSlash => 2%nat end.

Definition root_decode (n : nat) : Root :=
  match n with 0%nat => Relative | 1%nat => Slash | _ => DoubleSlash end.

#[global] Program Instance Path_countable : Countable Path :=
  inj_countable'
    (λ p, (root_code (root p), parts p))
    (λ x, mkPath (root_decode x.1) x.2) _.
Next Obligation. by intros [[] ?]. Qed.

Definition slash : N := 47.
Definition dot : N := 46.

(** [s.split("/")] *)
Fixpoint split_on (sep : N) (s : str) : list str :=
  match s with
  | [] => [[]]
  | c :: s' =>
      if c =? sep then [] :: split_on sep s'
      else match split_on sep s' with
           | [] => [[c]]
           | w :: ws => (c :: w) :: ws
           end
  end.

(** The components of a string given to the path constructor: empty
    components and ["."] are dropped. *)
Definition parse_parts (s : str) : list str :=
  List.filter (λ w, negb (bool_decide (w = []) || bool_decide (w = [dot])))
    (split_on slash s).

(** The root of such a string: exactly two leading slashes are kept as
    ["//"], any other number of them is ["/"]. *)
Definition parse_root (s : str) : Root :=
  match s with
  | c1 :: s1 =>
      if c1 =? slash then
        match s1 with
        | c2 :: s2 =>
            if c2 =? slash then
              match s2 with
              | c3 :: _ => if c3 =? slash then Slash else DoubleSlash
              | [] => DoubleSlash
              end
            else Slash
        | [] => Slash
        end
      else Relative
  | [] => Relative
  end.

(** [p / s] for a string [s]: an absolute [s] replaces [p]. *)
Definition joinpath (p : Path) (s : str) : Path :=
  match parse_root s with
  | Relative => mkPath (root p) (parts p ++ parse_parts s)
  | r => mkPath r (parse_parts s)
  end.

Infix "//" := joinpath (at level 40, left associativity).

(** [p.name]: the final component, [""] when there is none. *)
Definition name (p : Path) : str := List.last (parts p) [].

(** [p.parent]: a path without components is its own parent. *)
Definition parent (p : Path) : Path := mkPath (root p) (removelast (parts p)).

(** [s.rfind(c)] *)
Fixpoint rfind (c : N) (s : str) : option nat :=
  match s with
  | [] => None
  | x :: s' =>
      match rfind c s' with
      | Some i => Some (S i)
      | None => if x =? c then Some 0%nat else None
      end
  end.

(** [p.suffix], on the final component: the text from the last dot on,
    unless that dot is the first or the last character. *)
Definition suffix_of (nm : str) : str :=
  match rfind dot nm with
  | Some i =>
      if bool_decide (0 < i)%nat && bool_decide (i < length nm - 1)%nat
      then drop i nm else []
  | None => []
  end.

(** [p.with_suffix(suffix)] *)
Definition with_suffix (p : Path) (suffix : str) : result Path :=
  if bool_decide (slash ∈ suffix) then Raise ValueError
  else if (negb (bool_decide (suffix = [])) && negb (bool_decide (head suffix = Some dot)))
          || bool_decide (suffix = [dot]) then Raise ValueError
  else
    let nm := name p in
    if bool_decide (nm = []) then Raise ValueError
    else
      let old_suffix := suffix_of nm in
      let nm' :=
        if bool_decide (old_suffix = []) then nm ++ suffix
        else take (length nm - length old_suffix)%nat nm ++ suffix in
      Ok (mkPath (root p) (removelast (parts p) ++ [nm'])).

(** ** PathMapping and DirectoriesStructure *)

Record PathMapping := mkPathMapping { source : Path; dest : Path }.

#[global] Instance PathMapping_eq_dec : EqDecision PathMapping.
Proof. solve_decision. Defined.

(** [PathMapping.__lt__] *)
Definition PathMapping_lt (self other : PathMapping) : bool :=
  str_lt (name (dest self)) (name (dest other)).

(** A [dict] keeps its keys in insertion order; assigning to a key that
    is present replaces the value in place. *)
Definition dict (K V : Type) := list (K * V).

Fixpoint dict_set {K V} `{EqDecision K} (d : dict K V) (k : K) (v : V) : dict K V :=
  match d with
  | [] => [(k, v)]
  | (k', v') :: d' =>
      if decide (k' = k) then (k', v) :: d' else (k', v') :: dict_set d' k v
  end.

Definition third_level := list PathMapping.
Definition second_level := dict PathMapping third_level.

Record DirectoriesStructure := mkDirs { dirs : dict PathMapping second_level }.

(** [a < b] on lists of mappings, as Python compares sequences: at the
    first position where the elements differ ([==]) they are compared
    with [<]; a proper prefix is smaller. *)
Fixpoint list_lt (xs ys : list PathMapping) : bool :=
  match xs, ys with
  | _, [] => false
  | [], _ :: _ => true
  | x :: xs', y :: ys' =>
      if decide (x = y) then list_lt xs' ys' else PathMapping_lt x y
  end.

(** [a < b] on the pairs yielded by [dict.items()]. *)
Definition item_lt (a b : PathMapping * third_level) : bool :=
  if decide (a.1 = b.1) then list_lt a.2 b.2 else PathMapping_lt a.1 b.1.

(** [sorted(xs)]: a stable sort that uses [<] only.  An element is put
    after the elements of the sorted rest that are smaller than it. *)
Fixpoint sorted_insert {A} (lt : A → A → bool) (x : A) (l : list A) : list A :=
  match l with
  | [] => [x]
  | y :: l' => if lt y x then y :: sorted_insert lt x l' else x :: y :: l'
  end.

Fixpoint sorted {A} (lt : A → A → bool) (l : list A) : list A :=
  match l with
  | [] => []
  | x :: l' => sorted_insert lt x (sorted lt l')
  end.

(** ** The file system

    A tree of files and directories.  A directory keeps its entries in
    the order in which the operating system lists them.  Paths are taken
    literally: there are no symbolic links and no [..] components, and
    the working directory is the root of the tree, so that a relative
    and an absolute path with the same components name the same node. *)

#[local] Set Warnings "-register-all".

Inductive node :=
  | File (content : str)
  | Dir (entries : list (str * node)).

Abbreviation FS := node (only parsing).

Fixpoint assoc (k : str) (es : list (str * node)) : option node :=
  match es with
  | [] => None
  | (k', n) :: es' => if decide (k' = k) then Some n else assoc k es'
  end.

Fixpoint assoc_set (k : str) (n : node) (es : list (str * node)) : list (str * node) :=
  match es with
  | [] => [(k, n)]
  | (k', n') :: es' =>
      if decide (k' = k) then (k', n) :: es' else (k', n') :: assoc_set k n es'
  end.

(** The node that a list of components leads to. *)
Fixpoint walk (n : node) (ps : list str) : option node :=
  match ps with
  | [] => Some n
  | p :: ps' =>
      match n with
      | Dir es => c ← assoc p es; walk c ps'
      | File _ => None
      end
  end.

Definition stat (fs : FS) (p : Path) : option node := walk fs (parts p).

(** [path.exists()] *)
Definition path_exists (fs : FS) (p : Path) : bool :=
  bool_decide (is_Some (stat fs p)).

(** [await file_exists(path)]: [path.exists()], run in a thread. *)
Definition file_exists (fs : FS) (path : Path) : bool := path_exists fs path.

(** [path.is_dir()] *)
Definition is_dir (fs : FS) (p : Path) : bool :=
  match stat fs p with
  | Some (Dir _) => true
  | _ => false
  end.

(** [path.iterdir()]: the children of a directory, in listing order. *)
Definition iterdir (fs : FS) (p : Path) : result (list Path) :=
  match stat fs p with
  | Some (Dir es) => Ok (List.map (λ e, mkPath (root p) (parts p ++ [e.1])) es)
  | Some (File _) => Raise NotADirectoryError
  | None => Raise FileNotFoundError
  end.

(** [path.mkdir(parents=True, exist_ok=True)]: the missing directories
    along the path are created; an existing file in the way is an error
    ([FileExistsError] at the end of the path, [NotADirectoryError]
    before it). *)
Fixpoint mkdirs (n : node) (ps : list str) : result node :=
  match n, ps with
  | Dir _, [] => Ok n
  | File _, [] => Raise FileExistsError
  | File _, _ :: _ => Raise NotADirectoryError
  | Dir es, p :: ps' =>
      match assoc p es with
      | Some c => c' ← mkdirs c ps'; Ok (Dir (assoc_set p c' es))
      | None => c' ← mkdirs (Dir []) ps'; Ok (Dir (es ++ [(p, c')]))
      end
  end.

Definition mkdir (fs : FS) (p : Path) : result FS := mkdirs fs (parts p).

(** [open(path, "r")] followed by [read()]. *)
Fixpoint read_at (n : node) (ps : list str) : result str :=
  match n, ps with
  | File content, [] => Ok content
  | Dir _, [] => Raise IsADirectoryError
  | File _, _ :: _ => Raise NotADirectoryError
  | Dir es, p :: ps' =>
      match assoc p es with
      | Some c => read_at c ps'
      | None => Raise FileNotFoundError
      end
  end.

Definition read_file (fs : FS) (p : Path) : result str := read_at fs (parts p).

(** [open(path, "w")]: the file is created, or emptied when it exists;
    its directory must exist. *)
Fixpoint create_at (n : node) (ps : list str) : result node :=
  match n, ps with
  | File _, [] => Ok (File [])
  | Dir _, [] => Raise IsADirectoryError
  | File _, _ :: _ => Raise NotADirectoryError
  | Dir es, p :: ps' =>
      match assoc p es with
      | Some c => c' ← create_at c ps'; Ok (Dir (assoc_set p c' es))
      | None =>
          match ps' with
          | [] => Ok (Dir (es ++ [(p, File [])]))
          | _ :: _ => Raise FileNotFoundError
          end
      end
  end.

Definition open_write (fs : FS) (p : Path) : result FS := create_at fs (parts p).

(** [f.write(content)] on a file opened at [path]; the file is there
    since nothing removes files. *)
Fixpoint write_at (content : str) (n : node) (ps : list str) : node :=
  match n, ps with
  | File _, [] => File content
  | Dir es, p :: ps' =>
      match assoc p es with
      | Some c => Dir (assoc_set p (write_at content c ps') es)
      | None => n
      end
  | _, _ => n
  end.

Definition write_content (fs : FS) (p : Path) (content : str) : FS :=
  write_at content fs (parts p).

(** ** What a run does, as a trace

    Log records and the file-system calls that change the tree (recorded
    when the call is made, whether or not it succeeds). *)

Inductive event :=
  | LogWouldCopy (source_file dest_file : Path)
  | LogCopied (source_file dest_file : Path)
  | LogFileNotFound (source_file : Path)
  | LogWouldWrite (dest_file : Path) (content : str)
  | LogWouldCreate (dest_dir : Path)
  | SysMkdir (p : Path)
  | SysOpenWrite (p : Path)
  | SysWrite (p : Path) (content : str).

Definition is_mutation (e : event) : bool :=
  match e with
  | SysMkdir _ | SysOpenWrite _ | SysWrite _ _ => true
  | _ => false
  end.

(** The file an event writes content to, if it does. *)
Definition written_file (e : event) : option Path :=
  match e with
  | SysWrite p _ => Some p
  | _ => None
  end.

(** ** Coroutines

    [copy_file] and [write_to_file] suspend at each [await]; a coroutine
    is represented by the point it has reached. *)

Inductive coro :=
  | CopyFile (source_file dest_file : Path) (dry_run : bool)
  | CopyMkdir (source_file dest_file : Path)
  | CopyRead (source_file dest_file : Path)
  | CopyOpenDest (source_file dest_file : Path) (content : str)
  | CopyWrite (source_file dest_file : Path) (content : str)
  | WriteToFile (dest_file : Path) (content : str) (dry_run : bool)
  | WriteOpen (dest_file : Path) (content : str)
  | WriteWrite (dest_file : Path) (content : str)
  | Returned
  | Raised (e : exn).

#[global] Instance exn_eq_dec : EqDecision exn.
Proof. solve_decision. Defined.

#[global] Instance coro_eq_dec : EqDecision coro.
Proof. solve_decision. Defined.

#[global] Instance event_eq_dec : EqDecision event.
Proof. solve_decision. Defined.

Definition finished (c : coro) : bool :=
  match c with
  | Returned | Raised _ => true
  | _ => false
  end.

(** One step of a coroutine: from the point it has reached up to the next
    [await] that completes.  Opening the source and reading it are one
    step; opening the destination (which creates or empties the file) and
    writing to it are two.  A failing call raises in the coroutine. *)
Definition step (fs : FS) (c : coro) : FS * coro * list event :=
  match c with
  | CopyFile source_file dest_file dry_run =>
      if file_exists fs source_file then
        if dry_run then (fs, Returned, [LogWouldCopy source_file dest_file])
        else (fs, CopyMkdir source_file dest_file, [])
      else (fs, Returned, [LogFileNotFound source_file])
  | CopyMkdir source_file dest_file =>
      match mkdir fs (parent dest_file) with
      | Ok fs' => (fs', CopyRead source_file dest_file, [SysMkdir (parent dest_file)])
      | Raise e => (fs, Raised e, [SysMkdir (parent dest_file)])
      end
  | CopyRead source_file dest_file =>
      match read_file fs source_file with
      | Ok content => (fs, CopyOpenDest source_file dest_file content, [])
      | Raise e => (fs, Raised e, [])
      end
  | CopyOpenDest source_file dest_file content =>
      match open_write fs dest_file with
      | Ok fs' => (fs', CopyWrite source_file dest_file content, [SysOpenWrite dest_file])
      | Raise e => (fs, Raised e, [SysOpenWrite dest_file])
      end
  | CopyWrite source_file dest_file content =>
      (write_content fs dest_file content, Returned,
       [SysWrite dest_file content; LogCopied source_file dest_file])
  | WriteToFile dest_file content dry_run =>
      if dry_run then (fs, Returned, [LogWouldWrite dest_file content])
      else
        match mkdir fs (parent dest_file) with
        | Ok fs' => (fs', WriteOpen dest_file content, [SysMkdir (parent dest_file)])
        | Raise e => (fs, Raised e, [SysMkdir (parent dest_file)])
        end
  | WriteOpen dest_file content =>
      match open_write fs dest_file with
      | Ok fs' => (fs', WriteWrite dest_file content, [SysOpenWrite dest_file])
      | Raise e => (fs, Raised e, [SysOpenWrite dest_file])
      end
  | WriteWrite dest_file content =>
      (write_content fs dest_file content, Returned, [SysWrite dest_file content])
  | Returned => (fs, Returned, [])
  | Raised e => (fs, Raised e, [])
  end.

(** [copy_file(source_file, dest_file, dry_run)] and
    [write_to_file(dest_file, content, dry_run)]: calling an [async def]
    creates the coroutine and runs nothing. *)
Definition copy_file (source_file dest_file : Path) (dry_run : bool) : coro :=
  CopyFile source_file dest_file dry_run.

Definition write_to_file (dest_file : Path) (content : str) (dry_run : bool) : coro :=
  WriteToFile dest_file content dry_run.

(** ** asyncio.gather

    The coroutines of a batch run interleaved: a schedule names, step by
    step, the coroutine that advances; every order in which the event
    loop can advance them is some schedule.  A batch carries the file
    system, the coroutines, the trace so far and the first exception
    raised.  The schedule goes on after an exception: the other
    coroutines may advance until they are cancelled. *)

Record batch := mkBatch {
  b_fs : FS;
  b_pool : list coro;
  b_trace : list event;
  b_exn : option exn
}.

Definition raised_exn (c : coro) : option exn :=
  match c with
  | Raised e => Some e
  | _ => None
  end.

(** Coroutine [i] takes one step (nothing happens if it has finished or
    if there is no such coroutine). *)
Definition batch_step (b : batch) (i : nat) : batch :=
  match b_pool b !! i with
  | Some c =>
      let '(fs', c', evs) := step (b_fs b) c in
      mkBatch fs' (<[i := c']> (b_pool b)) (b_trace b ++ evs)
        (match b_exn b with
         | Some e => Some e
         | None => if finished c then None else raised_exn c'
         end)
  | None => b
  end.

Definition run_schedule (sched : list nat) (b : batch) : batch :=
  foldl batch_step b sched.

(** No coroutine needs more than five steps. *)
Definition max_steps : nat := 5.

(** Once the schedule is used up, the coroutines that are left are run
    to their end, one after the other; the first exception stops the
    batch, and the coroutines still pending are cancelled. *)
Fixpoint complete_from (i : nat) (n : nat) (b : batch) : batch :=
  match n with
  | O => b
  | S n' =>
      match b_exn b with
      | Some _ => b
      | None => complete_from (S i) n' (run_schedule (replicate max_steps i) b)
      end
  end.

(** The state and error monad of the driver: a computation reads and
    changes the file system, extends the trace, and returns or raises. *)
Definition io (A : Type) : Type := FS → FS * list event * result A.

#[global] Instance io_ret : MRet io := λ A a fs, (fs, [], Ok a).

#[global] Instance io_bind : MBind io := λ A B k m fs,
  match m fs with
  | (fs', t, Ok a) => let '(fs'', t', r) := k a fs' in (fs'', t ++ t', r)
  | (fs', t, Raise e) => (fs', t, Raise e)
  end.

(** A computation that only reads the file system. *)
Definition io_read {A} (f : FS → result A) : io A := λ fs, (fs, [], f fs).

Definition io_log (e : event) : io unit := λ fs, (fs, [e], Ok tt).

(** [await asyncio.gather] on the coroutines [tasks], under the schedule
    [sched]. *)
Definition gather (sched : list nat) (tasks : list coro) : io unit := λ fs,
  let b := run_schedule sched (mkBatch fs tasks [] None) in
  let b := complete_from 0 (length tasks) b in
  (b_fs b, b_trace b,
   match b_exn b with
   | Some e => Raise e
   | None => Ok tt
   end).

(** [await mkdir_async(path, parents=True, exist_ok=True)] *)
Definition mkdir_async (path : Path) : io unit := λ fs,
  match mkdir fs path with
  | Ok fs' => (fs', [SysMkdir path], Ok tt)
  | Raise e => (fs, [SysMkdir path], Raise e)
  end.

(** ** processing.py *)

Definition nl : str := [10].

Definition EXCLUDED_FOLDERS : list str := [lit ".cargo"; lit ".idea"; lit "target"].

Section Processing.
Context {db : UnicodeDB}.

(** The mappings of the third level under one directory of the second
    level. *)
Definition third_level_mappings (fs : FS) (second_level_mapping : PathMapping)
    (entries : list Path) : list PathMapping :=
  List.map
    (λ d, mkPathMapping d (dest second_level_mapping // to_snake_case (name d)))
    (List.filter (is_dir fs) entries).

Definition collect_second_level (fs : FS) (first_level_mapping : PathMapping)
    (inner : second_level) (second_level_dir : Path) : result second_level :=
  let second_level_mapping :=
    mkPathMapping second_level_dir
      (dest first_level_mapping // to_snake_case (name second_level_dir)) in
  entries ← iterdir fs second_level_dir;
  Ok (dict_set inner second_level_mapping
        (third_level_mappings fs second_level_mapping entries)).

Definition collect_first_level (fs : FS) (dest_dir : Path)
    (res : dict PathMapping second_level) (first_level_dir : Path)
    : result (dict PathMapping second_level) :=
  let first_level_mapping :=
    mkPathMapping first_level_dir
      (dest_dir // to_snake_case (name first_level_dir)) in
  entries ← iterdir fs first_level_dir;
  let second_level_dirs := List.filter (is_dir fs) entries in
  inner ← for_each (collect_second_level fs first_level_mapping) [] second_level_dirs;
  Ok (dict_set res first_level_mapping inner).

(** [collect_dirs_structure(origin_dir, dest_dir)]; [res] is the dict
    that the source calls [result].  The source stores
    an empty dict under the first-level key and fills it in the inner
    loop; here the inner dict is built first and stored once. *)
Definition collect_dirs_structure (fs : FS) (origin_dir dest_dir : Path)
    : result DirectoriesStructure :=
  entries ← iterdir fs origin_dir;
  let first_level_dirs :=
    List.filter
      (λ d, is_dir fs d && negb (bool_decide (name d ∈ EXCLUDED_FOLDERS)))
      entries in
  res ← for_each (collect_first_level fs dest_dir) [] first_level_dirs;
  Ok (mkDirs res).
End Processing.

(** The body of the innermost loop of [copy_code_and_task_files]. *)
Definition copy_leaf (fs : FS) (dry_run : bool) (tasks : list coro)
    (third_level_dir : PathMapping) : result (list coro) :=
  let source_main_file := source third_level_dir // lit "src" // lit "main.rs" in
  dest_main_file ← with_suffix (dest third_level_dir) (lit ".rs");
  let tasks :=
    if negb (file_exists fs dest_main_file)
    then tasks ++ [copy_file source_main_file dest_main_file dry_run]
    else tasks in
  let source_task_file := source third_level_dir // lit "task.md" in
  dest_task_file ← with_suffix (dest third_level_dir) (lit ".md");
  let tasks :=
    if negb (file_exists fs dest_main_file)
    then tasks ++ [copy_file source_task_file dest_task_file dry_run]
    else tasks in
  Ok tasks.

(** The three loops of [copy_code_and_task_files]: the list of coroutines
    handed to [asyncio.gather]. *)
Definition copy_tasks (fs : FS) (dirs_struct : DirectoriesStructure) (dry_run : bool)
    : result (list coro) :=
  for_each
    (λ tasks (second_level_to_third_level_dir : second_level),
       for_each
         (λ tasks (item : PathMapping * third_level),
            for_each (copy_leaf fs dry_run) tasks item.2)
         tasks second_level_to_third_level_dir)
    [] (List.map snd (dirs dirs_struct)).

Definition copy_code_and_task_files (sched : list nat)
    (dirs_struct : DirectoriesStructure) (dry_run : bool) : io unit :=
  tasks ← io_read (λ fs, copy_tasks fs dirs_struct dry_run);
  gather sched tasks.

(** The text of one [mod.rs]. *)
Definition mod_content (second_level_to_third_level_dir : second_level) : str :=
  join (nl ++ nl)
    (List.map
       (λ item : PathMapping * third_level,
          lit "pub mod " ++ name (dest item.1) ++ lit " {" ++ nl
          ++ join nl
               (List.map
                  (λ third_level_dir,
                     lit "    pub mod " ++ name (dest third_level_dir) ++ lit ";")
                  (sorted PathMapping_lt item.2))
          ++ nl ++ lit "}")
       (sorted item_lt second_level_to_third_level_dir)).

Definition mod_tasks (dirs_struct : DirectoriesStructure) (dry_run : bool) : list coro :=
  List.map
    (λ entry : PathMapping * second_level,
       let dest_mod_file := dest entry.1 // lit "mod.rs" in
       write_to_file dest_mod_file (mod_content entry.2) dry_run)
    (dirs dirs_struct).

Definition create_mod_files (sched : list nat)
    (dirs_struct : DirectoriesStructure) (dry_run : bool) : io unit :=
  gather sched (mod_tasks dirs_struct dry_run).

(** ** cli.py *)

Section Cli.
Context {db : UnicodeDB}.

(** [run(origin, destination, dry_run)]; [sched1] and [sched2] are the
    schedules of the two batches. *)
Definition run (sched1 sched2 : list nat) (origin_dir dest_dir : Path)
    (dry_run : bool) : io unit :=
  dirs_structure ← io_read (λ fs, collect_dirs_structure fs origin_dir dest_dir);
  (if dry_run then io_log (LogWouldCreate dest_dir) else mkdir_async dest_dir);;
  copy_code_and_task_files sched1 dirs_structure dry_run;;
  create_mod_files sched2 dirs_structure dry_run.
End Cli.

(** * The vocabulary of the properties *)

(** ** Characters, strings and paths *)

(** The characters of a normalized ASCII name: [a-z0-9_]. *)
Definition snake_char (c : N) : bool :=
  in_range 97 122 c || in_range 48 57 c || (c =? 95).

(** A code point below 128. *)
Definition is_ascii (c : N) : Prop := c < 128.

(** [a <= b] as "not [b < a]"; it is transitive because [<] is total. *)
Definition str_le (a b : str) : Prop := str_lt b a = false.

(** Exactly one of three propositions holds. *)
Definition exactly_one (P Q R : Prop) : Prop :=
  (P ∧ ¬ Q ∧ ¬ R) ∨ (¬ P ∧ Q ∧ ¬ R) ∨ (¬ P ∧ ¬ Q ∧ R).

(** The final component of the destination, on which mappings are
    compared. *)
Definition dest_name (m : PathMapping) : str := name (dest m).

(** [b] is not smaller than [a] in the ordering of PathMapping. *)
Definition mapping_le (a b : PathMapping) : Prop := str_le (dest_name a) (dest_name b).

(** The path [p] with [ext] appended to its final component. *)
Definition append_extension (p : Path) (ext : str) : Path :=
  mkPath (root p) (removelast (parts p) ++ [name p ++ ext]).

(** [c] is a direct child of [p]: [p] is the parent of [c], and [c] is
    not [p] itself (a path without components is its own parent). *)
Definition direct_child (c p : Path) : Prop := parent c = p ∧ c ≠ p.

(** ** Destinations in a collected structure *)

Section Vocabulary.
Context {db : UnicodeDB}.

(** The origin directory of the mapping has a non-empty normalized
    name. *)
Definition named (m : PathMapping) : Prop :=
  to_snake_case (name (source m)) ≠ [].

(** How [collect_dirs_structure] builds a destination from the one of
    the owning mapping, level by level. *)
Definition third_ok (second third : PathMapping) : Prop :=
  dest third = dest second // to_snake_case (name (source third))
  ∧ (named third → direct_child (dest third) (dest second)).

Definition second_ok (first : PathMapping) (item : PathMapping * third_level) : Prop :=
  dest item.1 = dest first // to_snake_case (name (source item.1))
  ∧ (named item.1 → direct_child (dest item.1) (dest first))
  ∧ Forall (third_ok item.1) item.2.

Definition first_ok (dest_dir : Path) (entry : PathMapping * second_level) : Prop :=
  dest entry.1 = dest_dir // to_snake_case (name (source entry.1))
  ∧ (named entry.1 → direct_child (dest entry.1) dest_dir)
  ∧ Forall (second_ok entry.1) entry.2.

End Vocabulary.

(** ** Sample trees *)

(** A leaf directory with [task.md] and, when [with_main] holds, with
    [src/main.rs]. *)
Definition leaf_dir (with_main : bool) : node :=
  Dir ((if with_main
        then [(lit "src", Dir [(lit "main.rs", File (lit "fn main() {}"))])]
        else [])
       ++ [(lit "task.md", File (lit "Task content"))]).

(** [origin/First Module/Second Module/Third Module], as in the tests. *)
Definition sample_tree (with_main : bool) : node :=
  Dir [(lit "origin",
        Dir [(lit "First Module",
              Dir [(lit "Second Module",
                    Dir [(lit "Third Module", leaf_dir with_main)])])])].

(** An origin whose only directory is named [!!!]. *)
Definition punctuation_tree : node :=
  Dir [(lit "origin", Dir [(lit "!!!", Dir [])])].

Definition sample_origin : Path := mkPath Relative [lit "origin"].

Definition sample_destination : Path := mkPath Relative [lit "dest"].

(** The mappings of the three directories of [sample_tree]. *)
Definition sample_first : PathMapping :=
  mkPathMapping (sample_origin // lit "First Module")
    (sample_destination // lit "first_module").

Definition sample_second : PathMapping :=
  mkPathMapping (source sample_first // lit "Second Module")
    (dest sample_first // lit "second_module").

Definition sample_third : PathMapping :=
  mkPathMapping (source sample_second // lit "Third Module")
    (dest sample_second // lit "third_module").

Definition sample_structure : DirectoriesStructure :=
  mkDirs [(sample_first, [(sample_second, [sample_third])])].

(** ** Aggregation files *)

(** The ordering of the items of a dict, by their keys. *)
Definition item_le (a b : PathMapping * third_level) : Prop := mapping_le a.1 b.1.

(** One block, as the specification writes it: the header with the name
    of the level-2 destination, one indented line per name of a level-3
    destination, and the closing brace. *)
Definition mod_block (second_name : str) (third_names : list str) : str :=
  lit "pub mod " ++ second_name ++ lit " {" ++ nl
  ++ join nl (List.map (λ n, lit "    pub mod " ++ n ++ lit ";") third_names)
  ++ nl ++ lit "}".

(** Blocks separated by one blank line. *)
Definition mod_document (blocks : list (PathMapping * third_level)) : str :=
  join (nl ++ nl)
    (List.map (λ b, mod_block (dest_name b.1) (List.map dest_name b.2)) blocks).

(** Mappings in ascending order of the final component of [dest]. *)
Definition ascending (ms : list PathMapping) : Prop := StronglySorted mapping_le ms.

(** [blocks] holds the level-2 mappings of [items], each with its level-3
    mappings, both rearranged in ascending order. *)
Definition sorted_arrangement (items blocks : list (PathMapping * third_level)) : Prop :=
  ∃ items', items' ≡ₚ items
    ∧ Forall2 (λ item b, b.1 = item.1 ∧ b.2 ≡ₚ item.2 ∧ ascending b.2) items' blocks
    ∧ ascending (List.map fst blocks).

(** ** Leaf copies *)

(** The leaf mappings of a structure, in the order in which
    [copy_code_and_task_files] visits them. *)
Definition leaves (dirs_struct : DirectoriesStructure) : list PathMapping :=
  List.flat_map (λ inner : second_level, List.flat_map snd inner)
    (List.map snd (dirs dirs_struct)).

(** The path [p] with the extension of its final component replaced by
    [ext] (appended when there is none). *)
Definition replace_extension (p : Path) (ext : str) : Path :=
  let nm := name p in
  let stem := take (length nm - length (suffix_of nm))%nat nm in
  mkPath (root p) (removelast (parts p) ++ [stem ++ ext]).

(** The four files of a leaf, named as in [copy_code_and_task_files]. *)
Definition dest_main_file (leaf : PathMapping) : Path :=
  replace_extension (dest leaf) (lit ".rs").

Definition dest_task_file (leaf : PathMapping) : Path :=
  replace_extension (dest leaf) (lit ".md").

Definition source_main_file (leaf : PathMapping) : Path :=
  source leaf // lit "src" // lit "main.rs".

Definition source_task_file (leaf : PathMapping) : Path :=
  source leaf // lit "task.md".

(** The rule of the specification for one leaf: both copies are gated on
    the [.rs] destination. *)
Definition leaf_copies (fs : FS) (dry_run : bool) (leaf : PathMapping) : list coro :=
  if file_exists fs (dest_main_file leaf) then []
  else [copy_file (source_main_file leaf) (dest_main_file leaf) dry_run;
        copy_file (source_task_file leaf) (dest_task_file leaf) dry_run].

(** ** Batches *)

(** No exception is recorded only if no coroutine has raised. *)
Definition consistent (b : batch) : Prop :=
  b_exn b = None → Forall (λ c, raised_exn c = None) (b_pool b).

(** Two batches that differ at most in coroutine [i] and in their
    traces. *)
Definition same_but (i : nat) (b1 b2 : batch) : Prop :=
  b_fs b1 = b_fs b2 ∧ b_exn b1 = b_exn b2
  ∧ ∀ j, j ≠ i → b_pool b1 !! j = b_pool b2 !! j.

(** The coroutines before position [k] have finished. *)
Definition finished_below (k : nat) (b : batch) : Prop :=
  ∀ j, (j < k)%nat → ∃ c, b_pool b !! j = Some c ∧ finished c = true.

(** The coroutines of a dry run: created with [dry_run = True], or
    finished. *)
Definition dry_coro (c : coro) : Prop :=
  match c with
  | CopyFile _ _ true | WriteToFile _ _ true | Returned | Raised _ => True
  | _ => False
  end.

(** A trace without any call that changes the file system. *)
Definition quiet (t : list event) : Prop := Forall (λ e, is_mutation e = false) t.

(** A batch of a dry run that started from [fs]. *)
Definition dry_batch (fs : FS) (b : batch) : Prop :=
  b_fs b = fs ∧ Forall dry_coro (b_pool b) ∧ quiet (b_trace b).

(** A computation that leaves the file system as it found it. *)
Definition harmless {A} (m : io A) : Prop :=
  ∀ fs, (m fs).1.1 = fs ∧ quiet (m fs).1.2.

(** The files written during a run, in order. *)
Definition written_files (t : list event) : list Path := omap written_file t.

(** * Properties *)

(** ** Tactics and list facts *)

(** Case analysis on every comparison of code points in sight. *)
Ltac cmp_cases :=
  repeat match goal with
    | |- context [?a <=? ?b] => destruct (N.leb_spec a b)
    | |- context [?a <? ?b] => destruct (N.ltb_spec a b)
    | |- context [?a =? ?b] => destruct (N.eqb_spec a b)
    end;
  simpl in *; try done; try lia.

Lemma filter_Forall_id {A} (f : A → bool) (l : list A) :
  Forall (λ x, f x = true) l → List.filter f l = l.
Proof.
  induction 1 as [|x l Hx _ IH]; simpl; [done|]. by rewrite Hx, IH.
Qed.

Lemma filter_Forall_keep {A} (P : A → Prop) (f : A → bool) (l : list A) :
  Forall P l → Forall P (List.filter f l).
Proof.
  induction 1 as [|x l Hx _ IH]; simpl; [constructor|].
  destruct (f x); [by constructor | done].
Qed.

Lemma filter_Forall_test {A} (f : A → bool) (l : list A) :
  Forall (λ x, f x = true) (List.filter f l).
Proof.
  induction l as [|x l IH]; simpl; [constructor|].
  destruct (f x) eqn:E; [by constructor | done].
Qed.

(** ** The name normalizer *)

Section NormalizerFacts.
Context {db : UnicodeDB}.

Lemma snake_char_ascii c : snake_char c = true → is_ascii c.
Proof. unfold snake_char, in_range, is_ascii. cmp_cases. Qed.

Lemma snake_char_word c : snake_char c = true → re_word c = true.
Proof. unfold snake_char, re_word, ascii_isalnum, in_range. cmp_cases. Qed.

Lemma snake_char_lower c : snake_char c = true → ascii_lower c = c.
Proof. unfold snake_char, ascii_lower, in_range. cmp_cases. Qed.

Lemma snake_char_not_space c : snake_char c = true → re_space c = false.
Proof. unfold snake_char, re_space, ascii_isspace, in_range. cmp_cases. Qed.

Lemma snake_char_not_hyphen c : snake_char c = true → is_hyphen c = false.
Proof. unfold snake_char, is_hyphen, in_range. cmp_cases. Qed.

Lemma snake_char_not_comma c : snake_char c = true → negb (c =? 44) = true.
Proof. unfold snake_char, in_range. cmp_cases. Qed.

Lemma ascii_word_lower c :
  is_ascii c → (re_word c || (c =? 95)) = true → snake_char (ascii_lower c) = true.
Proof.
  unfold is_ascii, re_word, snake_char, ascii_lower, ascii_isalnum, in_range.
  intros Hc. cmp_cases.
Qed.

Lemma sub_runs_Forall (P : N → Prop) p repl b s :
  Forall P repl → Forall P s → Forall P (sub_runs p repl b s).
Proof.
  intros Hrepl Hs. revert b.
  induction Hs as [|c s Hc _ IH]; intros b; simpl; [constructor|].
  destruct (p c).
  - apply Forall_app. split; [|apply IH]. destruct b; [constructor | done].
  - constructor; [done | apply IH].
Qed.

Lemma sub_runs_none p repl b s :
  Forall (λ c, p c = false) s → sub_runs p repl b s = s.
Proof.
  intros Hs. revert b.
  induction Hs as [|c s Hc _ IH]; intros b; simpl; [done|].
  by rewrite Hc, IH.
Qed.

(** Every character of [s.lower()] comes from lower-casing one character
    of [s]. *)
Lemma lower_from_Forall (P Q : N → Prop) pre s :
  (∀ pre post c d, Q c → d ∈ lower_at pre post c → P d) →
  Forall Q s → Forall P (lower_from pre s).
Proof.
  intros Hstep Hs. revert pre.
  induction Hs as [|c s Hc _ IH]; intros pre; simpl; [constructor|].
  apply Forall_app. split; [|apply IH].
  apply Forall_forall. intros d Hd. by eapply Hstep.
Qed.

Lemma lower_from_snake pre s :
  Forall (λ c, snake_char c = true) s → lower_from pre s = s.
Proof.
  intros Hs. revert pre.
  induction Hs as [|c s Hc _ IH]; intros pre; simpl; [done|].
  rewrite IH. unfold lower_at.
  pose proof (snake_char_ascii _ Hc) as Hlt. unfold is_ascii in Hlt.
  apply N.ltb_lt in Hlt. rewrite Hlt. simpl.
  by rewrite snake_char_lower.
Qed.

(** What survives the deletion of non-word characters. *)
Lemma strip_non_word_kept s :
  Forall (λ c, (re_word c || (c =? 95)) = true) (strip_non_word s).
Proof. apply filter_Forall_test. Qed.

(** The general shape of a normalized name: ASCII characters in it are
    lower-case letters, digits and underscores. *)
Lemma to_snake_case_chars x :
  Forall (λ d, snake_char d = true ∨ 128 ≤ d) (to_snake_case x).
Proof.
  unfold to_snake_case, lower.
  eapply lower_from_Forall; [|apply strip_non_word_kept].
  intros pre post c d Hc Hd. unfold lower_at in Hd.
  destruct (N.ltb_spec c 128) as [Hlt|Hge].
  - apply list_elem_of_singleton in Hd as ->. left.
    by apply ascii_word_lower.
  - destruct (N.lt_ge_cases d 128) as [Hd128|Hd128]; [|by right].
    left. pose proof (uni_lower_ascii pre post c d Hge Hd Hd128).
    unfold snake_char, in_range. cmp_cases.
Qed.

Lemma to_snake_case_ascii x :
  Forall is_ascii x → Forall is_ascii (to_snake_case x).
Proof.
  intros Hx. unfold to_snake_case, lower.
  eapply (lower_from_Forall _ is_ascii).
  - intros pre post c d Hc Hd. unfold lower_at in Hd.
    unfold is_ascii in Hc. apply N.ltb_lt in Hc. rewrite Hc in Hd.
    apply list_elem_of_singleton in Hd as ->.
    apply N.ltb_lt in Hc. unfold is_ascii, ascii_lower, in_range. cmp_cases.
  - unfold strip_non_word, remove_commas.
    apply filter_Forall_keep.
    assert (Forall is_ascii (lit "_")) as Hu.
    { repeat constructor. }
    apply sub_runs_Forall; [done|].
    apply sub_runs_Forall; [done|].
    by apply filter_Forall_keep.
Qed.

Lemma to_snake_case_ascii_snake x :
  Forall is_ascii x → Forall (λ d, snake_char d = true) (to_snake_case x).
Proof.
  intros Hx.
  pose proof (to_snake_case_chars x) as H1.
  pose proof (to_snake_case_ascii x Hx) as H2.
  rewrite Forall_forall in *. intros d Hd.
  destruct (H1 d Hd) as [?|Hge]; [done|].
  specialize (H2 d Hd). unfold is_ascii in H2. lia.
Qed.

(** A name made of [a-z0-9_] is left alone. *)
Lemma to_snake_case_fixed y :
  Forall (λ c, snake_char c = true) y → to_snake_case y = y.
Proof.
  intros Hy. unfold to_snake_case, lower, strip_non_word, remove_commas.
  rewrite (filter_Forall_id _ y).
  2: { eapply Forall_impl; [done|]. apply snake_char_not_comma. }
  rewrite (sub_runs_none re_space).
  2: { eapply Forall_impl; [done|]. apply snake_char_not_space. }
  rewrite (sub_runs_none is_hyphen).
  2: { eapply Forall_impl; [done|]. apply snake_char_not_hyphen. }
  rewrite filter_Forall_id.
  2: { eapply Forall_impl; [done|]. simpl. intros c Hc.
       by rewrite (snake_char_word c Hc). }
  by apply lower_from_snake.
Qed.

Lemma to_snake_case_no_dot_slash x :
  (dot ∉ to_snake_case x) ∧ (slash ∉ to_snake_case x).
Proof.
  pose proof (to_snake_case_chars x) as H. rewrite Forall_forall in H.
  split; intros Hin; destruct (H _ Hin) as [Hs|Hge];
    try (unfold dot, slash in Hge; lia);
    revert Hs; unfold snake_char, in_range, dot, slash; cmp_cases.
Qed.
End NormalizerFacts.

(** C6: the normalizer is a function defined on every string, and on the
    four inputs of the specification it returns the names given there:
    ["Accessing Values in a Hash Map"] becomes
    ["accessing_values_in_a_hash_map"], ["Module-Test"] becomes
    ["module_test"], ["Already_Snake"] becomes ["already_snake"], and the
    empty string stays empty. *)
Theorem to_snake_case_examples {db : UnicodeDB} :
  to_snake_case (lit "Accessing Values in a Hash Map")
    = lit "accessing_values_in_a_hash_map"
  ∧ to_snake_case (lit "Module-Test") = lit "module_test"
  ∧ to_snake_case (lit "Already_Snake") = lit "already_snake"
  ∧ to_snake_case (lit "") = lit "".
Proof. repeat split; reflexivity. Qed.

(** C4, as stated, fails: LATIN CAPITAL LETTER I WITH DOT ABOVE (U+0130)
    is a word character, so it is kept and then lower-cased to [i]
    followed by COMBINING DOT ABOVE (U+0307); the combining mark is not a
    word character, and a second normalization deletes it. *)
Lemma to_snake_case_not_idempotent :
  @to_snake_case ucd_excerpt [304] = [105; 775]
  ∧ @to_snake_case ucd_excerpt (@to_snake_case ucd_excerpt [304]) = [105]
  ∧ @to_snake_case ucd_excerpt (@to_snake_case ucd_excerpt [304])
    ≠ @to_snake_case ucd_excerpt [304].
Proof. split; [reflexivity|]. split; [reflexivity | discriminate]. Qed.

(** C4, amended: the normalizer is idempotent on ASCII strings: for every
    string [x] of code points below 128,
    [to_snake_case (to_snake_case x) = to_snake_case x]. *)
Theorem to_snake_case_idempotent_ascii {db : UnicodeDB} (x : str) :
  Forall is_ascii x →
  to_snake_case (to_snake_case x) = to_snake_case x.
Proof.
  intros Hx. apply to_snake_case_fixed. by apply to_snake_case_ascii_snake.
Qed.

Lemma to_snake_case_idempotent_ascii_witness :
  Forall is_ascii (lit "Module-Test, v2")
  ∧ @to_snake_case ucd_excerpt (@to_snake_case ucd_excerpt (lit "Module-Test, v2"))
    = @to_snake_case ucd_excerpt (lit "Module-Test, v2").
Proof.
  assert (Forall is_ascii (lit "Module-Test, v2")) as H.
  { repeat constructor. }
  split; [exact H|].
  exact (@to_snake_case_idempotent_ascii ucd_excerpt (lit "Module-Test, v2") H).
Defined.

(** ** String comparison *)

Lemma str_lt_irrefl a : str_lt a a = false.
Proof.
  induction a as [|x a IH]; simpl; [done|].
  rewrite IH, N.ltb_irrefl. by rewrite andb_false_r.
Qed.

Lemma str_lt_total a b : str_lt a b = true ∨ a = b ∨ str_lt b a = true.
Proof.
  revert b. induction a as [|x a IH]; intros [|y b]; simpl; auto.
  destruct (N.lt_trichotomy x y) as [Hlt|[->|Hgt]].
  - left. apply N.ltb_lt in Hlt. by rewrite Hlt.
  - rewrite N.ltb_irrefl, N.eqb_refl. simpl.
    destruct (IH b) as [?|[->|?]]; auto.
  - right. right. apply N.ltb_lt in Hgt. by rewrite Hgt.
Qed.

Lemma str_lt_asym a b : str_lt a b = true → str_lt b a = false.
Proof.
  revert b. induction a as [|x a IH]; intros [|y b]; simpl; try done.
  intros H. apply orb_true_iff in H as [H|H].
  - apply N.ltb_lt in H.
    destruct (N.ltb_spec y x); [lia|]. destruct (N.eqb_spec y x); [lia|done].
  - apply andb_true_iff in H as [Hxy H]. apply N.eqb_eq in Hxy as ->.
    rewrite N.ltb_irrefl, N.eqb_refl. simpl. by apply IH.
Qed.

Lemma str_lt_trans a b c :
  str_lt a b = true → str_lt b c = true → str_lt a c = true.
Proof.
  revert b c. induction a as [|x a IH]; intros [|y b] [|z c]; simpl; try done.
  intros H1 H2.
  apply orb_true_iff in H1 as [H1|H1]; apply orb_true_iff in H2 as [H2|H2].
  - apply N.ltb_lt in H1, H2. destruct (N.ltb_spec x z); [done|lia].
  - apply andb_true_iff in H2 as [Hyz _]. apply N.eqb_eq in Hyz as <-.
    by rewrite H1.
  - apply andb_true_iff in H1 as [Hxy _]. apply N.eqb_eq in Hxy as ->.
    by rewrite H2.
  - apply andb_true_iff in H1 as [Hxy H1]. apply andb_true_iff in H2 as [Hyz H2].
    apply N.eqb_eq in Hxy as ->. apply N.eqb_eq in Hyz as ->.
    rewrite N.eqb_refl, (IH b c H1 H2). simpl. by rewrite orb_true_r.
Qed.

Lemma str_le_trans a b c : str_le a b → str_le b c → str_le a c.
Proof.
  unfold str_le. intros Hab Hbc.
  destruct (str_lt c a) eqn:Hca; [|done].
  destruct (str_lt_total a b) as [H|[->|H]]; [|congruence..].
  pose proof (str_lt_trans _ _ _ Hca H). congruence.
Qed.

Lemma str_lt_le a b : str_lt a b = true → str_le a b.
Proof. apply str_lt_asym. Qed.

(** ** The ordering of PathMapping *)

(** C9, as stated, fails: two mappings of different sources whose
    destinations end in the same component are neither smaller than one
    another nor equal. *)
Lemma PathMapping_lt_not_trichotomous :
  let a := mkPathMapping (mkPath Relative [lit "A B"]) (mkPath Relative [lit "out"; lit "a_b"]) in
  let b := mkPathMapping (mkPath Relative [lit "a-b"]) (mkPath Relative [lit "out"; lit "a_b"]) in
  PathMapping_lt a b = false ∧ PathMapping_lt b a = false ∧ a ≠ b
  ∧ ¬ exactly_one (PathMapping_lt a b = true) (PathMapping_lt b a = true) (a = b).
Proof.
  simpl. split; [reflexivity|]. split; [reflexivity|]. split; [discriminate|].
  intros [(H & _)|[(_ & H & _)|(_ & _ & H)]]; discriminate.
Qed.

(** C9, amended: the ordering of PathMapping compares the final component
    of [dest] only; it is a strict weak order: irreflexive, transitive,
    and for every two mappings [a] and [b] exactly one of [a < b],
    [b < a], or "the final components of the two destinations are equal"
    holds. *)
Theorem PathMapping_lt_strict_weak_order (a b c : PathMapping) :
  PathMapping_lt a a = false
  ∧ implb (PathMapping_lt a b && PathMapping_lt b c) (PathMapping_lt a c) = true
  ∧ exactly_one (PathMapping_lt a b = true) (PathMapping_lt b a = true)
      (dest_name a = dest_name b).
Proof.
  unfold PathMapping_lt, dest_name. split; [apply str_lt_irrefl|]. split.
  - destruct (str_lt (name (dest a)) (name (dest b))) eqn:H1; [|done].
    destruct (str_lt (name (dest b)) (name (dest c))) eqn:H2; [|done].
    simpl. by rewrite (str_lt_trans _ _ _ H1 H2).
  - unfold exactly_one.
    destruct (str_lt_total (name (dest a)) (name (dest b))) as [H|[H|H]].
    + left. pose proof (str_lt_asym _ _ H) as H'. repeat split; [done|congruence|].
      intros E. rewrite E, str_lt_irrefl in H. discriminate.
    + right. right. rewrite H, str_lt_irrefl. repeat split; congruence.
    + right. left. pose proof (str_lt_asym _ _ H) as H'. repeat split; [congruence|done|].
      intros E. rewrite E, str_lt_irrefl in H. discriminate.
Qed.

(** ** Paths *)

Lemma split_on_no_sep sep s : sep ∉ s → split_on sep s = [s].
Proof.
  induction s as [|c s IH]; simpl; [done|]. intros Hnot.
  apply not_elem_of_cons in Hnot as [Hne Hnot].
  destruct (N.eqb_spec c sep); [congruence|]. by rewrite IH.
Qed.

Lemma parse_parts_component s :
  s ≠ [] → slash ∉ s → dot ∉ s → parse_parts s = [s].
Proof.
  intros Hne Hslash Hdot. unfold parse_parts. rewrite split_on_no_sep by done.
  simpl. rewrite bool_decide_eq_false_2 by done.
  rewrite bool_decide_eq_false_2; [done|].
  intros ->. apply Hdot. by left.
Qed.

Lemma parse_root_no_slash s : slash ∉ s → parse_root s = Relative.
Proof.
  destruct s as [|c s]; simpl; [done|]. intros Hnot.
  apply not_elem_of_cons in Hnot as [Hne _].
  destruct (N.eqb_spec c slash); congruence.
Qed.

(** Joining a path with a name that is one component appends it. *)
Lemma joinpath_component p s :
  s ≠ [] → slash ∉ s → dot ∉ s → p // s = mkPath (root p) (parts p ++ [s]).
Proof.
  intros. unfold joinpath.
  by rewrite parse_root_no_slash, parse_parts_component.
Qed.

(** Joining a path with the empty string gives the path back. *)
Lemma joinpath_empty p : p // [] = p.
Proof. destruct p as [r ps]. unfold joinpath. simpl. by rewrite app_nil_r. Qed.

Lemma name_snoc r ps s : name (mkPath r (ps ++ [s])) = s.
Proof. unfold name. simpl. apply last_last. Qed.

Lemma parent_snoc r ps s : parent (mkPath r (ps ++ [s])) = mkPath r ps.
Proof. unfold parent. simpl. by rewrite removelast_last. Qed.

Lemma rfind_absent c s : c ∉ s → rfind c s = None.
Proof.
  induction s as [|x s IH]; simpl; [done|]. intros Hnot.
  apply not_elem_of_cons in Hnot as [Hne Hnot].
  rewrite IH by done. destruct (N.eqb_spec x c); congruence.
Qed.

Lemma suffix_of_no_dot s : dot ∉ s → suffix_of s = [].
Proof. intros H. unfold suffix_of. by rewrite rfind_absent. Qed.

Lemma with_suffix_no_dot p ext :
  name p ≠ [] → dot ∉ name p →
  ext = lit ".rs" ∨ ext = lit ".md" →
  with_suffix p ext = Ok (append_extension p ext).
Proof.
  intros Hne Hdot Hext. unfold with_suffix, append_extension.
  rewrite (bool_decide_eq_false_2 (name p = [])) by done.
  rewrite suffix_of_no_dot by done.
  by destruct Hext as [-> | ->].
Qed.

Lemma direct_child_snoc p s : direct_child (mkPath (root p) (parts p ++ [s])) p.
Proof.
  split.
  - rewrite parent_snoc. by destruct p.
  - destruct p as [r ps]. simpl. intros [= H].
    apply (f_equal length) in H. rewrite length_app in H. simpl in H. lia.
Qed.

Section PathsOfNames.
Context {db : UnicodeDB}.

(** A destination built from a name whose normalized form is not empty
    is a direct child, and its final component is the normalized name. *)
Lemma joinpath_normalized p x :
  to_snake_case x ≠ [] →
  p // to_snake_case x = mkPath (root p) (parts p ++ [to_snake_case x]).
Proof.
  intros Hne. destruct (to_snake_case_no_dot_slash x).
  by apply joinpath_component.
Qed.

Lemma joinpath_normalized_child p x :
  to_snake_case x ≠ [] → direct_child (p // to_snake_case x) p.
Proof.
  intros Hne. rewrite joinpath_normalized by done. apply direct_child_snoc.
Qed.
End PathsOfNames.

(** ** Loops that may raise *)

Lemma bind_Ok {A B} (r : result A) (k : A → result B) (y : B) :
  r ≫= k = Ok y → ∃ a, r = Ok a ∧ k a = Ok y.
Proof. destruct r as [a|e]; simpl; [eauto | done]. Qed.

(** A property of the accumulator that every iteration keeps holds when
    the loop returns. *)
Lemma for_each_invariant {A S} (I : S → Prop) (body : S → A → result S) xs acc r :
  (∀ s x s', x ∈ xs → I s → body s x = Ok s' → I s') →
  I acc → for_each body acc xs = Ok r → I r.
Proof.
  revert acc. induction xs as [|x xs IH]; intros acc Hbody Hacc; simpl.
  - by intros [= <-].
  - intros H. apply bind_Ok in H as (acc' & Hx & Hrest).
    eapply IH; [| |exact Hrest].
    + intros s y s' Hy. apply Hbody. by right.
    + eapply Hbody; [by left|done..].
Qed.

(** A loop whose body never raises returns. *)
Lemma for_each_total {A S} (body : S → A → result S) xs acc :
  (∀ s x, x ∈ xs → ∃ s', body s x = Ok s') →
  ∃ r, for_each body acc xs = Ok r.
Proof.
  revert acc. induction xs as [|x xs IH]; intros acc Hbody; simpl; [eauto|].
  destruct (Hbody acc x) as [acc' ->]; [by left|]. simpl.
  apply IH. intros s y Hy. apply Hbody. by right.
Qed.

Lemma dict_set_Forall {K V} `{EqDecision K} (P : K * V → Prop) (d : dict K V) k v :
  P (k, v) → Forall P d → Forall P (dict_set d k v).
Proof.
  intros Hkv. induction 1 as [|[k' v'] d Hx Hd IH]; simpl.
  - by repeat constructor.
  - destruct (decide (k' = k)) as [->|]; by constructor.
Qed.

(** ** TreeMapper: destinations and their owners *)

Section TreeMapper.
Context {db : UnicodeDB}.

Lemma third_level_mappings_ok fs second entries :
  Forall (third_ok second) (third_level_mappings fs second entries).
Proof.
  unfold third_level_mappings.
  induction (List.filter (is_dir fs) entries) as [|d ds IH]; simpl;
    constructor; [|done].
  split; simpl; [done|]. apply joinpath_normalized_child.
Qed.

Lemma collect_second_level_ok fs first inner d inner' :
  Forall (second_ok first) inner →
  collect_second_level fs first inner d = Ok inner' →
  Forall (second_ok first) inner'.
Proof.
  intros Hinner H. unfold collect_second_level in H.
  apply bind_Ok in H as (entries & _ & [= <-]).
  apply dict_set_Forall; [|done].
  split; simpl; [done|]. split; [apply joinpath_normalized_child|].
  apply third_level_mappings_ok.
Qed.

Lemma collect_first_level_ok fs dest_dir res d res' :
  Forall (first_ok dest_dir) res →
  collect_first_level fs dest_dir res d = Ok res' →
  Forall (first_ok dest_dir) res'.
Proof.
  intros Hres H. unfold collect_first_level in H.
  apply bind_Ok in H as (entries & _ & H).
  apply bind_Ok in H as (inner & Hinner & [= <-]).
  apply dict_set_Forall; [|done].
  split; simpl; [done|]. split; [apply joinpath_normalized_child|].
  eapply (for_each_invariant (Forall (second_ok _))); [|constructor|exact Hinner].
  intros s x s' _. apply collect_second_level_ok.
Qed.

Lemma collect_dirs_structure_ok fs origin_dir dest_dir ds :
  collect_dirs_structure fs origin_dir dest_dir = Ok ds →
  Forall (first_ok dest_dir) (dirs ds).
Proof.
  intros H. unfold collect_dirs_structure in H.
  apply bind_Ok in H as (entries & _ & H).
  apply bind_Ok in H as (res & Hres & [= <-]). simpl.
  eapply (for_each_invariant (Forall (first_ok dest_dir))); [|constructor|exact Hres].
  intros s x s' _. apply collect_first_level_ok.
Qed.

Lemma is_dir_iterdir fs d : is_dir fs d = true → ∃ entries, iterdir fs d = Ok entries.
Proof.
  unfold is_dir, iterdir. destruct (stat fs d) as [[|es]|]; try done. eauto.
Qed.

(** The mapper returns a structure whenever the origin is a directory. *)
Lemma collect_dirs_structure_total fs origin_dir dest_dir :
  is_dir fs origin_dir = true →
  ∃ ds, collect_dirs_structure fs origin_dir dest_dir = Ok ds.
Proof.
  intros Horigin. unfold collect_dirs_structure.
  destruct (is_dir_iterdir _ _ Horigin) as [entries ->]. simpl.
  match goal with |- context [for_each ?b ?a ?l] =>
    destruct (for_each_total b l a) as [res ->] end; [|simpl; eauto].
  intros s d Hd. apply list_elem_of_In, filter_In in Hd as [_ Hd].
  apply andb_true_iff in Hd as [Hd _].
  unfold collect_first_level.
  destruct (is_dir_iterdir _ _ Hd) as [entries2 ->]. simpl.
  match goal with |- context [for_each ?b ?a ?l] =>
    destruct (for_each_total b l a) as [inner ->] end; [|simpl; eauto].
  intros s2 d2 Hd2. apply list_elem_of_In, filter_In in Hd2 as [_ Hd2].
  unfold collect_second_level.
  destruct (is_dir_iterdir _ _ Hd2) as [entries3 ->]. simpl. eauto.
Qed.
End TreeMapper.

(** ** C2: destinations and their owners *)

(** C2, as stated, fails: the directory name [!!!] is normalized to the
    empty string, joining the destination root with the empty string
    gives the destination root back, and the level-1 destination is then
    the root itself, not a child of it. *)
Lemma empty_name_destination_is_not_a_child :
  @to_snake_case ucd_excerpt (lit "!!!") = []
  ∧ @collect_dirs_structure ucd_excerpt punctuation_tree sample_origin sample_destination
    = Ok (mkDirs [(mkPathMapping (sample_origin // lit "!!!") sample_destination, [])])
  ∧ ¬ direct_child sample_destination sample_destination.
Proof.
  split; [reflexivity|]. split; [reflexivity|]. by intros [_ H].
Qed.

(** C2, amended: in every structure returned by [collect_dirs_structure],
    every level-1 mapping whose origin directory name has a non-empty
    normalized form has a destination that is a direct child of the
    destination root, every such level-2 mapping has a destination that
    is a direct child of its level-1 mapping's destination, and every
    such level-3 mapping has a destination that is a direct child of its
    level-2 mapping's destination. *)
Theorem collected_destinations_are_children {db : UnicodeDB}
    (fs : FS) (origin_dir dest_dir : Path) (ds : DirectoriesStructure) :
  collect_dirs_structure fs origin_dir dest_dir = Ok ds →
  Forall (λ entry : PathMapping * second_level,
    (named entry.1 → direct_child (dest entry.1) dest_dir)
    ∧ Forall (λ item : PathMapping * third_level,
        (named item.1 → direct_child (dest item.1) (dest entry.1))
        ∧ Forall (λ third,
            named third → direct_child (dest third) (dest item.1)) item.2)
        entry.2)
    (dirs ds).
Proof.
  intros H. apply collect_dirs_structure_ok in H.
  eapply Forall_impl; [exact H|]. intros entry (_ & Hchild & Hinner).
  split; [done|].
  eapply Forall_impl; [exact Hinner|]. intros item (_ & Hchild2 & Hthirds).
  split; [done|].
  eapply Forall_impl; [exact Hthirds|]. by intros third [_ ?].
Qed.

Lemma collected_destinations_are_children_witness :
  @collect_dirs_structure ucd_excerpt (sample_tree true) sample_origin sample_destination
    = Ok sample_structure
  ∧ Forall (λ entry : PathMapping * second_level,
      (@named ucd_excerpt entry.1 → direct_child (dest entry.1) sample_destination)
      ∧ Forall (λ item : PathMapping * third_level,
          (@named ucd_excerpt item.1 → direct_child (dest item.1) (dest entry.1))
          ∧ Forall (λ third,
              @named ucd_excerpt third → direct_child (dest third) (dest item.1)) item.2)
          entry.2)
      (dirs sample_structure).
Proof.
  split; [reflexivity|].
  apply (@collected_destinations_are_children ucd_excerpt
           (sample_tree true) sample_origin sample_destination).
  reflexivity.
Defined.

(** ** C10: normalized names and file extensions *)

(** C10, as stated, fails: the normalized form of U+0130 ends in
    COMBINING DOT ABOVE (U+0307), which is not a word character. *)
Lemma to_snake_case_output_not_word :
  @to_snake_case ucd_excerpt [304] = [105; 775]
  ∧ @re_word ucd_excerpt 775 = false
  ∧ ¬ Forall (λ d, @re_word ucd_excerpt d = true) (@to_snake_case ucd_excerpt [304]).
Proof.
  split; [reflexivity|]. split; [reflexivity|].
  intros H. apply Forall_cons in H as [_ H]. apply Forall_cons in H as [H _].
  discriminate.
Qed.

(** C10, amended: for every input string [x], every ASCII character of
    [to_snake_case x] is a lower-case letter, a digit or an underscore
    (the other characters are what lower-casing a non-ASCII word
    character gives, which need not be word characters), and when [x] is
    ASCII every character of the output is a word character; the output
    never contains a dot; so for every leaf mapping built by the mapper
    from a directory name [x] with a non-empty normalized form, the [.rs]
    and [.md] destination paths computed by [with_suffix] are the leaf
    destination with the extension appended to its final component. *)
Theorem normalized_leaf_takes_extension {db : UnicodeDB}
    (x : str) (fs : FS) (second : PathMapping) (entries : list Path)
    (leaf : PathMapping) :
  leaf ∈ third_level_mappings fs second entries →
  name (source leaf) = x →
  to_snake_case x ≠ [] →
  Forall (λ d, snake_char d = true ∨ 128 ≤ d) (to_snake_case x)
  ∧ (Forall is_ascii x → Forall (λ d, re_word d = true) (to_snake_case x))
  ∧ (dot ∉ to_snake_case x)
  ∧ dest_name leaf = to_snake_case x
  ∧ with_suffix (dest leaf) (lit ".rs") = Ok (append_extension (dest leaf) (lit ".rs"))
  ∧ with_suffix (dest leaf) (lit ".md") = Ok (append_extension (dest leaf) (lit ".md")).
Proof.
  intros Hleaf <- Hne.
  split; [apply to_snake_case_chars|]. split.
  { intros Hx. eapply Forall_impl; [by apply to_snake_case_ascii_snake|].
    apply snake_char_word. }
  destruct (to_snake_case_no_dot_slash (name (source leaf))) as [Hdot Hslash].
  split; [done|].
  pose proof (third_level_mappings_ok fs second entries) as Hok.
  rewrite Forall_forall in Hok. destruct (Hok leaf Hleaf) as [Hdest _].
  rewrite joinpath_normalized in Hdest by done.
  assert (dest_name leaf = to_snake_case (name (source leaf))) as Hname.
  { unfold dest_name. rewrite Hdest. apply name_snoc. }
  split; [done|]. unfold dest_name in Hname.
  split; apply with_suffix_no_dot; rewrite ?Hname; auto.
Qed.

Lemma normalized_leaf_takes_extension_witness :
  sample_third ∈ @third_level_mappings ucd_excerpt (sample_tree true) sample_second
                   [source sample_second // lit "Third Module"]
  ∧ name (source sample_third) = lit "Third Module"
  ∧ @to_snake_case ucd_excerpt (lit "Third Module") ≠ []
  ∧ with_suffix (dest sample_third) (lit ".rs")
    = Ok (append_extension (dest sample_third) (lit ".rs"))
  ∧ append_extension (dest sample_third) (lit ".rs")
    = sample_destination // lit "first_module" // lit "second_module"
        // lit "third_module.rs".
Proof.
  assert (sample_third ∈ @third_level_mappings ucd_excerpt (sample_tree true)
            sample_second [source sample_second // lit "Third Module"]) as H1.
  { by left. }
  assert (name (source sample_third) = lit "Third Module") as H2 by reflexivity.
  assert (@to_snake_case ucd_excerpt (lit "Third Module") ≠ []) as H3 by discriminate.
  split; [exact H1|]. split; [exact H2|]. split; [exact H3|].
  split; [|reflexivity].
  exact (proj1 (proj2 (proj2 (proj2 (proj2
    (@normalized_leaf_takes_extension ucd_excerpt _ _ _ _ _ H1 H2 H3)))))).
Defined.

(** ** Sorting *)

Section Sorting.
Context {A : Type} (lt : A → A → bool) (le : A → A → Prop).
Hypothesis lt_le : ∀ x y, lt x y = true → le x y.
Hypothesis not_lt_le : ∀ x y, lt y x = false → le x y.
Hypothesis le_trans : ∀ x y z, le x y → le y z → le x z.

Lemma sorted_insert_perm x l : sorted_insert lt x l ≡ₚ x :: l.
Proof.
  induction l as [|y l IH]; simpl; [done|].
  destruct (lt y x); [|done]. rewrite IH. apply Permutation_swap.
Qed.

Lemma sorted_perm l : sorted lt l ≡ₚ l.
Proof.
  induction l as [|x l IH]; simpl; [done|].
  by rewrite sorted_insert_perm, IH.
Qed.

Lemma sorted_insert_sorted x l :
  StronglySorted le l → StronglySorted le (sorted_insert lt x l).
Proof.
  induction 1 as [|y l Hl IH Hy]; simpl.
  - repeat constructor.
  - destruct (lt y x) eqn:Hyx.
    + constructor; [done|]. rewrite sorted_insert_perm.
      constructor; [by apply lt_le | done].
    + pose proof (not_lt_le _ _ Hyx) as Hxy.
      constructor; [by constructor|].
      constructor; [done|].
      eapply Forall_impl; [exact Hy|]. intros z Hz. by eapply le_trans.
Qed.

Lemma sorted_sorted l : StronglySorted le (sorted lt l).
Proof.
  induction l as [|x l IH]; simpl; [constructor|].
  by apply sorted_insert_sorted.
Qed.
End Sorting.

Lemma mapping_le_trans a b c : mapping_le a b → mapping_le b c → mapping_le a c.
Proof. apply str_le_trans. Qed.

(** [sorted(third_level_dirs)] is ascending in the destination name. *)
Lemma sorted_mappings_ascending (l : list PathMapping) :
  StronglySorted mapping_le (sorted PathMapping_lt l).
Proof.
  apply sorted_sorted.
  - intros x y. apply str_lt_le.
  - by intros x y.
  - apply mapping_le_trans.
Qed.

Lemma mapping_le_refl_eq a b : a = b → mapping_le a b.
Proof. intros ->. apply str_lt_irrefl. Qed.

(** [sorted(d.items())] is ascending in the destination name of the key. *)
Lemma sorted_items_ascending (l : list (PathMapping * third_level)) :
  StronglySorted item_le (sorted item_lt l).
Proof.
  apply sorted_sorted.
  - intros x y. unfold item_lt, item_le.
    destruct (decide (x.1 = y.1)) as [E|_]; [intros _; by apply mapping_le_refl_eq|].
    apply str_lt_le.
  - intros x y. unfold item_lt, item_le.
    destruct (decide (y.1 = x.1)) as [E|_]; [intros _; by apply mapping_le_refl_eq|].
    done.
  - intros x y z. apply mapping_le_trans.
Qed.

(** On the items of a dict, whose keys are distinct, [<] on the pairs is
    [<] on the keys. *)
Lemma item_lt_distinct_keys a b :
  a.1 ≠ b.1 → item_lt a b = PathMapping_lt a.1 b.1.
Proof. intros Hne. unfold item_lt. by destruct (decide (a.1 = b.1)). Qed.

(** ** C5: the aggregation files *)

Lemma mod_content_document (items : second_level) :
  mod_content items
  = mod_document (List.map (λ item, (item.1, sorted PathMapping_lt item.2))
                    (sorted item_lt items)).
Proof.
  unfold mod_content, mod_document, mod_block, dest_name.
  rewrite List.map_map. f_equal. apply List.map_ext. intros [k thirds]. simpl.
  by rewrite List.map_map.
Qed.

Lemma sorted_arrangement_sorted (items : second_level) :
  sorted_arrangement items
    (List.map (λ item, (item.1, sorted PathMapping_lt item.2)) (sorted item_lt items)).
Proof.
  exists (sorted item_lt items). split; [apply sorted_perm|]. split.
  - induction (sorted item_lt items) as [|item l IH]; simpl; constructor; [|done].
    simpl. split; [done|]. split; [apply sorted_perm|].
    apply sorted_mappings_ascending.
  - rewrite List.map_map. simpl.
    pose proof (sorted_items_ascending items) as H.
    induction H as [|item l Hl IH Hitem]; simpl; constructor; [done|].
    clear -Hitem. induction Hitem; simpl; by constructor.
Qed.

(** C5: for every structure, [create_mod_files] gathers one write per
    level-1 mapping, in the order of the structure; the file
    written is [mod.rs] inside the mapping's destination, and its content
    is one block [pub mod <level-2 name> { ... }] per level-2 mapping,
    the blocks in ascending order of the final component of [dest], each
    with one line [    pub mod <level-3 name>;] per level-3 mapping in
    the same ascending order, and consecutive blocks separated by one
    blank line. *)
Theorem create_mod_files_documents (dirs_struct : DirectoriesStructure) (dry_run : bool) :
  ∃ tasks,
    (∀ sched, create_mod_files sched dirs_struct dry_run = gather sched tasks)
    ∧ Forall2
        (λ (entry : PathMapping * second_level) (task : coro),
           ∃ blocks,
             sorted_arrangement entry.2 blocks
             ∧ task = write_to_file (dest entry.1 // lit "mod.rs")
                        (mod_document blocks) dry_run)
        (dirs dirs_struct) tasks.
Proof.
  exists (mod_tasks dirs_struct dry_run). split; [done|]. unfold mod_tasks.
  induction (dirs dirs_struct) as [|entry l IH]; simpl; constructor; [|done].
  eexists. split; [apply sorted_arrangement_sorted|].
  by rewrite mod_content_document.
Qed.

(** The ordering example of the specification: two level-2 mappings whose
    destinations end in [b_mod] and [a_mod] give the block of [a_mod]
    first. *)
Example mod_content_orders_blocks :
  let first := mkPath Relative [lit "dest"; lit "first"] in
  let b := mkPathMapping (mkPath Relative [lit "B"]) (first // lit "b_mod") in
  let a := mkPathMapping (mkPath Relative [lit "A"]) (first // lit "a_mod") in
  mod_content [(b, []); (a, [])]
  = lit "pub mod a_mod {" ++ nl ++ nl ++ lit "}" ++ nl ++ nl
    ++ lit "pub mod b_mod {" ++ nl ++ nl ++ lit "}".
Proof. reflexivity. Qed.

(** ** C1: which copies are attempted *)

Lemma with_suffix_named p ext :
  name p ≠ [] → ext = lit ".rs" ∨ ext = lit ".md" →
  with_suffix p ext = Ok (replace_extension p ext).
Proof.
  intros Hne Hext. unfold with_suffix, replace_extension.
  rewrite (bool_decide_eq_false_2 (name p = [])) by done.
  assert (bool_decide (slash ∈ ext) = false) as ->.
  { by destruct Hext as [-> | ->]. }
  assert ((negb (bool_decide (ext = [])) && negb (bool_decide (head ext = Some dot))
           || bool_decide (ext = [dot])) = false) as ->.
  { by destruct Hext as [-> | ->]. }
  simpl. case_bool_decide as Hsuf; [|done].
  rewrite Hsuf. simpl. by rewrite Nat.sub_0_r, firstn_all.
Qed.

Lemma with_suffix_unnamed p ext :
  name p = [] → with_suffix p ext = Raise ValueError.
Proof.
  intros Hnm. unfold with_suffix. rewrite Hnm.
  by repeat (case_bool_decide; simpl; try done); destruct (_ || _).
Qed.

Lemma flat_map_flat_map {A B C} (f : B → list C) (g : A → list B) (l : list A) :
  List.flat_map f (List.flat_map g l) = List.flat_map (λ x, List.flat_map f (g x)) l.
Proof.
  induction l as [|x l IH]; simpl; [done|]. by rewrite flat_map_app, IH.
Qed.

Lemma for_each_append {A B} (body : list B → A → result (list B))
    (f : A → list B) (xs : list A) (acc : list B) :
  (∀ acc x, x ∈ xs → body acc x = Ok (acc ++ f x)) →
  for_each body acc xs = Ok (acc ++ List.flat_map f xs).
Proof.
  revert acc. induction xs as [|x xs IH]; intros acc Hbody; simpl.
  - by rewrite app_nil_r.
  - rewrite Hbody by (by left). simpl.
    rewrite IH by (intros acc' y Hy; apply Hbody; by right).
    by rewrite app_assoc.
Qed.

Lemma copy_leaf_named fs dry_run tasks leaf :
  dest_name leaf ≠ [] →
  copy_leaf fs dry_run tasks leaf = Ok (tasks ++ leaf_copies fs dry_run leaf).
Proof.
  intros Hne. unfold copy_leaf, leaf_copies, dest_name in *.
  rewrite !with_suffix_named by auto. simpl.
  fold (dest_main_file leaf). fold (dest_task_file leaf).
  fold (source_main_file leaf). fold (source_task_file leaf).
  destruct (file_exists fs (dest_main_file leaf)); simpl.
  - by rewrite app_nil_r.
  - by rewrite <- app_assoc.
Qed.

(** A leaf whose destination has no final component stops the function
    with [ValueError] before any copy is attempted. *)
Lemma copy_leaf_unnamed fs dry_run tasks leaf :
  dest_name leaf = [] → copy_leaf fs dry_run tasks leaf = Raise ValueError.
Proof.
  intros Hnm. unfold copy_leaf. by rewrite !with_suffix_unnamed by exact Hnm.
Qed.

Lemma copy_tasks_named fs dirs_struct dry_run :
  Forall (λ leaf, dest_name leaf ≠ []) (leaves dirs_struct) →
  copy_tasks fs dirs_struct dry_run
  = Ok (List.flat_map (leaf_copies fs dry_run) (leaves dirs_struct)).
Proof.
  unfold copy_tasks, leaves. intros Hnamed.
  rewrite Forall_flat_map in Hnamed. rewrite Forall_forall in Hnamed.
  rewrite flat_map_flat_map.
  rewrite (for_each_append _
             (λ inner : second_level,
                List.flat_map (leaf_copies fs dry_run) (List.flat_map snd inner)));
    [done|].
  intros acc inner Hinner.
  specialize (Hnamed inner Hinner).
  rewrite Forall_flat_map in Hnamed. rewrite Forall_forall in Hnamed.
  rewrite flat_map_flat_map.
  apply (for_each_append _
           (λ item : PathMapping * third_level,
              List.flat_map (leaf_copies fs dry_run) item.2)).
  intros acc2 item Hitem.
  specialize (Hnamed item Hitem).
  apply for_each_append. intros acc3 leaf Hleaf.
  apply copy_leaf_named.
  rewrite Forall_forall in Hnamed. by apply Hnamed.
Qed.

(** The structures that the mapper builds under a destination root with a
    final component have named leaf destinations: joining with a
    normalized name appends it or, when it is empty, changes nothing. *)
Lemma joinpath_normalized_named {db : UnicodeDB} p x :
  name p ≠ [] → name (p // to_snake_case x) ≠ [].
Proof.
  intros Hp. destruct (decide (to_snake_case x = [])) as [->|Hne].
  - by rewrite joinpath_empty.
  - by rewrite joinpath_normalized, name_snoc.
Qed.

Lemma collected_leaves_named {db : UnicodeDB} fs origin_dir dest_dir ds :
  name dest_dir ≠ [] →
  collect_dirs_structure fs origin_dir dest_dir = Ok ds →
  Forall (λ leaf, dest_name leaf ≠ []) (leaves ds).
Proof.
  intros Hroot H. apply collect_dirs_structure_ok in H.
  unfold leaves. apply Forall_flat_map, Forall_forall.
  intros inner Hinner. apply list_elem_of_In, in_map_iff in Hinner as ([first ?] & <- & Hin).
  rewrite Forall_forall in H. apply list_elem_of_In in Hin.
  destruct (H _ Hin) as (Hfirst & _ & Hseconds). simpl in *.
  apply Forall_flat_map. eapply Forall_impl; [exact Hseconds|].
  intros [second thirds] (Hsecond & _ & Hthirds). simpl in *.
  eapply Forall_impl; [exact Hthirds|]. intros third [Hthird _].
  unfold dest_name. rewrite Hthird, Hsecond, Hfirst.
  by do 3 apply joinpath_normalized_named.
Qed.

(** C1: for every structure whose leaf destinations have a final
    component (so that [with_suffix] is defined on them), the copies
    handed to the batch are, leaf by leaf in the order of the structure:
    nothing when the [.rs] destination of the leaf exists before the run,
    and otherwise both the copy of [src/main.rs] to the [.rs] destination
    and the copy of [task.md] to the [.md] destination.  The existence of
    the [.md] destination is never consulted. *)
Theorem copy_decisions_use_rs_destination
    (fs : FS) (dirs_struct : DirectoriesStructure) (dry_run : bool) :
  Forall (λ leaf, dest_name leaf ≠ []) (leaves dirs_struct) →
  let attempted :=
    List.flat_map
      (λ leaf,
         if file_exists fs (dest_main_file leaf) then []
         else [copy_file (source_main_file leaf) (dest_main_file leaf) dry_run;
               copy_file (source_task_file leaf) (dest_task_file leaf) dry_run])
      (leaves dirs_struct) in
  copy_tasks fs dirs_struct dry_run = Ok attempted
  ∧ ∀ sched, copy_code_and_task_files sched dirs_struct dry_run fs
             = gather sched attempted fs.
Proof.
  intros Hnamed attempted.
  assert (copy_tasks fs dirs_struct dry_run = Ok attempted) as Htasks.
  { by apply copy_tasks_named. }
  split; [done|]. intros sched.
  unfold copy_code_and_task_files, mbind, io_bind, io_read. rewrite Htasks.
  by destruct (gather sched attempted fs) as [[fs' t] r].
Qed.

Lemma copy_decisions_use_rs_destination_witness :
  Forall (λ leaf, dest_name leaf ≠ []) (leaves sample_structure)
  ∧ copy_tasks (sample_tree true) sample_structure false
    = Ok [copy_file (source_main_file sample_third) (dest_main_file sample_third) false;
          copy_file (source_task_file sample_third) (dest_task_file sample_third) false].
Proof.
  assert (Forall (λ leaf, dest_name leaf ≠ []) (leaves sample_structure)) as H.
  { repeat constructor. discriminate. }
  split; [exact H|].
  exact (proj1 (copy_decisions_use_rs_destination
                  (sample_tree true) sample_structure false H)).
Defined.

(** ** The file system: reading back what was written *)

Lemma assoc_set_lookup k n es : assoc k (assoc_set k n es) = Some n.
Proof.
  induction es as [|[k' n'] es IH]; simpl.
  - by rewrite decide_True.
  - destruct (decide (k' = k)) as [->|Hne]; simpl.
    + by rewrite decide_True.
    + by rewrite decide_False.
Qed.

Lemma assoc_snoc_fresh k n es : assoc k es = None → assoc k (es ++ [(k, n)]) = Some n.
Proof.
  induction es as [|[k' n'] es IH]; simpl.
  - by rewrite decide_True.
  - destruct (decide (k' = k)); [done|]. apply IH.
Qed.

(** Opening a file for writing leaves an empty file at the path. *)
Lemma create_at_file n ps n' : create_at n ps = Ok n' → walk n' ps = Some (File []).
Proof.
  revert n n'. induction ps as [|p ps IH]; intros [c|es] n'; simpl; try done.
  - by intros [= <-].
  - destruct (assoc p es) as [ch|] eqn:Hp.
    + intros H. apply bind_Ok in H as (ch' & Hch & [= <-]). simpl.
      rewrite assoc_set_lookup. simpl. by eapply IH.
    + destruct ps; [|done]. intros [= <-]. simpl.
      by rewrite assoc_snoc_fresh.
Qed.

(** Reading a file gives what was last written to it. *)
Lemma read_write_at content n ps c0 :
  walk n ps = Some (File c0) → read_at (write_at content n ps) ps = Ok content.
Proof.
  revert n. induction ps as [|p ps IH]; intros [c|es]; simpl; try done.
  destruct (assoc p es) as [ch|] eqn:Hp; simpl; [|done].
  intros Hch. rewrite assoc_set_lookup. by apply IH.
Qed.

Lemma open_write_read fs fs' p content :
  open_write fs p = Ok fs' → read_file (write_content fs' p content) p = Ok content.
Proof.
  unfold open_write, read_file, write_content. intros H.
  eapply read_write_at. by eapply create_at_file.
Qed.

(** Five steps finish every coroutine. *)
Lemma steps_finish fs c :
  let s1 := step fs c in
  let s2 := step s1.1.1 s1.1.2 in
  let s3 := step s2.1.1 s2.1.2 in
  let s4 := step s3.1.1 s3.1.2 in
  let s5 := step s4.1.1 s4.1.2 in
  finished s5.1.2 = true.
Proof.
  destruct c; simpl;
    repeat match goal with
      | |- context [if ?b then _ else _] => destruct b; simpl
      | |- context [match ?r with Ok _ => _ | Raise _ => _ end] => destruct r; simpl
      end; done.
Qed.

(** ** Batches run to the end *)

Lemma step_finished fs c : finished c = true → step fs c = (fs, c, []).
Proof. by destruct c. Qed.

Lemma batch_step_length b i : length (b_pool (batch_step b i)) = length (b_pool b).
Proof.
  unfold batch_step. destruct (b_pool b !! i); [|done].
  destruct (step (b_fs b) c) as [[fs' c'] evs]. simpl. apply length_insert.
Qed.

Lemma batch_step_exn_sticky b i e : b_exn b = Some e → b_exn (batch_step b i) = Some e.
Proof.
  intros He. unfold batch_step. destruct (b_pool b !! i); [|done].
  destruct (step (b_fs b) c) as [[fs' c'] evs]. simpl. by rewrite He.
Qed.

Lemma batch_step_consistent b i : consistent b → consistent (batch_step b i).
Proof.
  unfold consistent, batch_step. intros Hb.
  destruct (b_pool b !! i) as [c|] eqn:Hc; [|done].
  destruct (step (b_fs b) c) as [[fs' c'] evs] eqn:Hstep. simpl.
  destruct (b_exn b); [done|]. specialize (Hb eq_refl).
  destruct (finished c) eqn:Hfin.
  - intros _. rewrite step_finished in Hstep by done. injection Hstep as <- <- <-.
    by rewrite list_insert_id.
  - intros Hc'. by apply Forall_insert.
Qed.

Lemma batch_step_at b i c :
  b_pool b !! i = Some c →
  b_fs (batch_step b i) = (step (b_fs b) c).1.1
  ∧ b_pool (batch_step b i) !! i = Some (step (b_fs b) c).1.2.
Proof.
  intros Hc. unfold batch_step. rewrite Hc.
  destruct (step (b_fs b) c) as [[fs' c'] evs]. simpl. split; [done|].
  apply list_lookup_insert_eq. by eapply lookup_lt_Some.
Qed.

(** A finished coroutine stays as it is, whoever steps. *)
Lemma batch_step_keeps_finished b i j c :
  b_pool b !! j = Some c → finished c = true →
  b_pool (batch_step b i) !! j = Some c.
Proof.
  intros Hj Hfin. destruct (decide (i = j)) as [->|Hne].
  - destruct (batch_step_at b j c Hj) as [_ ->]. by rewrite step_finished.
  - unfold batch_step. destruct (b_pool b !! i); [|done].
    destruct (step (b_fs b) c0) as [[fs' c'] evs]. simpl.
    by rewrite list_lookup_insert_ne.
Qed.

Lemma run_schedule_keeps_finished sched b j c :
  b_pool b !! j = Some c → finished c = true →
  b_pool (run_schedule sched b) !! j = Some c.
Proof.
  unfold run_schedule. revert b.
  induction sched as [|i sched IH]; intros b Hj Hfin; simpl; [done|].
  apply IH; [|done]. by apply batch_step_keeps_finished.
Qed.

Lemma run_schedule_consistent sched b : consistent b → consistent (run_schedule sched b).
Proof.
  unfold run_schedule. revert b.
  induction sched as [|i sched IH]; intros b Hb; simpl; [done|].
  by apply IH, batch_step_consistent.
Qed.

Lemma run_schedule_length sched b :
  length (b_pool (run_schedule sched b)) = length (b_pool b).
Proof.
  unfold run_schedule. revert b.
  induction sched as [|i sched IH]; intros b; simpl; [done|].
  by rewrite IH, batch_step_length.
Qed.

(** The five steps given to coroutine [i] finish it. *)
Lemma run_to_end b i :
  (i < length (b_pool b))%nat →
  ∃ c, b_pool (run_schedule (replicate max_steps i) b) !! i = Some c
       ∧ finished c = true.
Proof.
  intros Hi. apply lookup_lt_is_Some_2 in Hi as [c0 Hc0].
  pose proof (steps_finish (b_fs b) c0) as Hfin. simpl in Hfin.
  unfold run_schedule, max_steps. simpl.
  destruct (batch_step_at _ _ _ Hc0) as [Hfs1 Hc1].
  destruct (batch_step_at _ _ _ Hc1) as [Hfs2 Hc2].
  destruct (batch_step_at _ _ _ Hc2) as [Hfs3 Hc3].
  destruct (batch_step_at _ _ _ Hc3) as [Hfs4 Hc4].
  destruct (batch_step_at _ _ _ Hc4) as [Hfs5 Hc5].
  eexists. split; [exact Hc5|].
  by rewrite Hfs4, Hfs3, Hfs2, Hfs1.
Qed.

Lemma complete_from_finished n i b :
  (i + n = length (b_pool b))%nat →
  finished_below i b →
  b_exn (complete_from i n b) = None →
  finished_below (i + n) (complete_from i n b).
Proof.
  revert i b. induction n as [|n IH]; intros i b Hlen Hbelow; cbn [complete_from].
  - intros _. by rewrite Nat.add_0_r.
  - destruct (b_exn b) eqn:He; [by rewrite He|].
    intros Hnone. replace (i + S n)%nat with (S i + n)%nat by lia.
    apply IH; [by rewrite run_schedule_length; lia| |done].
    intros j Hj. destruct (decide (j = i)) as [->|Hne].
    + apply run_to_end. lia.
    + destruct (Hbelow j) as (c & Hc & Hfin); [lia|].
      exists c. split; [|done]. by apply run_schedule_keeps_finished.
Qed.

Lemma complete_from_consistent n i b : consistent b → consistent (complete_from i n b).
Proof.
  revert i b. induction n as [|n IH]; intros i b Hb; cbn [complete_from]; [done|].
  destruct (b_exn b); [done|]. by apply IH, run_schedule_consistent.
Qed.

Lemma complete_from_length n i b :
  length (b_pool (complete_from i n b)) = length (b_pool b).
Proof.
  revert i b. induction n as [|n IH]; intros i b; cbn [complete_from]; [done|].
  destruct (b_exn b); [done|]. by rewrite IH, run_schedule_length.
Qed.

(** When [asyncio.gather] returns, every coroutine of the batch has
    returned: the steps that a batch is given are enough. *)
Lemma gather_returns_when_done sched tasks fs :
  Forall (λ c, raised_exn c = None) tasks →
  let b := complete_from 0 (length tasks) (run_schedule sched (mkBatch fs tasks [] None)) in
  (gather sched tasks fs).2 = Ok tt →
  Forall (λ c, c = Returned) (b_pool b).
Proof.
  intros Htasks b. unfold gather. fold b. simpl.
  destruct (b_exn b) eqn:He; [done|]. intros _.
  assert (consistent b) as Hcons.
  { apply complete_from_consistent, run_schedule_consistent. by intros _. }
  assert (finished_below (0 + length tasks) b) as Hfin.
  { apply complete_from_finished; [by rewrite run_schedule_length| |done].
    intros j Hj. lia. }
  specialize (Hcons He). apply Forall_lookup. intros j c Hc.
  rewrite Forall_lookup in Hcons. specialize (Hcons j c Hc).
  destruct (Hfin j) as (c' & Hc' & Hdone).
  { apply lookup_lt_Some in Hc. unfold b in Hc.
    by rewrite complete_from_length, run_schedule_length in Hc. }
  rewrite Hc in Hc'. injection Hc' as <-. by destruct c.
Qed.

(** A [write_to_file] that runs on its own and returns has written the
    content: the file at the destination holds it. *)
Lemma write_to_file_alone fs dest_file content fs' t :
  gather [] [write_to_file dest_file content false] fs = (fs', t, Ok tt) →
  read_file fs' dest_file = Ok content
  ∧ t = [SysMkdir (parent dest_file); SysOpenWrite dest_file;
         SysWrite dest_file content].
Proof.
  unfold gather, complete_from, run_schedule, max_steps, batch_step. simpl.
  destruct (mkdir fs (parent dest_file)) as [fs1|e1]; simpl; [|done].
  destruct (open_write fs1 dest_file) as [fs2|e2] eqn:Hopen; simpl; [|done].
  intros [= <- <-]. split; [|done]. by eapply open_write_read.
Qed.

(** ** C7: dry runs *)

Lemma step_dry fs c :
  dry_coro c → ∃ c' evs, step fs c = (fs, c', evs) ∧ dry_coro c' ∧ quiet evs.
Proof.
  destruct c as [s d [|]|? ?|? ?|? ? ?|? ? ?|d c [|]|? ?|? ?| |e]; simpl; try done;
    intros _.
  - destruct (file_exists fs s); do 2 eexists; (split; [done|]);
      by repeat constructor.
  - do 2 eexists. split; [done|]. by repeat constructor.
  - do 2 eexists. split; [done|]. by repeat constructor.
  - do 2 eexists. split; [done|]. by repeat constructor.
Qed.

Lemma batch_step_dry fs b i : dry_batch fs b → dry_batch fs (batch_step b i).
Proof.
  intros (Hfs & Hpool & Htrace). unfold batch_step.
  destruct (b_pool b !! i) as [c|] eqn:Hc; [|done].
  assert (dry_coro c) as Hdry.
  { rewrite Forall_forall in Hpool. apply Hpool. by eapply list_elem_of_lookup_2. }
  destruct (step_dry (b_fs b) c Hdry) as (c' & evs & -> & Hc' & Hevs).
  split; [done|]. split; simpl.
  - by apply Forall_insert.
  - by apply Forall_app.
Qed.

Lemma run_schedule_dry fs sched b : dry_batch fs b → dry_batch fs (run_schedule sched b).
Proof.
  unfold run_schedule. revert b.
  induction sched as [|i sched IH]; intros b Hb; simpl; [done|].
  by apply IH, batch_step_dry.
Qed.

Lemma complete_from_dry fs i n b : dry_batch fs b → dry_batch fs (complete_from i n b).
Proof.
  revert i b. induction n as [|n IH]; intros i b Hb; cbn [complete_from]; [done|].
  destruct (b_exn b); [done|]. by apply IH, run_schedule_dry.
Qed.

Lemma gather_dry sched tasks : Forall dry_coro tasks → harmless (gather sched tasks).
Proof.
  intros Htasks fs. unfold gather. simpl.
  destruct (complete_from_dry fs 0 (length tasks)
              (run_schedule sched (mkBatch fs tasks [] None))) as (? & _ & ?);
    [|done].
  apply run_schedule_dry. split; [done|]. split; [done|constructor].
Qed.

Lemma io_read_harmless {A} (f : FS → result A) : harmless (io_read f).
Proof. intros fs. split; [done|constructor]. Qed.

Lemma io_log_harmless e : is_mutation e = false → harmless (io_log e).
Proof. intros He fs. split; [done|]. by repeat constructor. Qed.

Lemma io_bind_harmless {A B} (m : io A) (k : A → io B) :
  harmless m → (∀ a, harmless (k a)) → harmless (m ≫= k).
Proof.
  intros Hm Hk fs. unfold mbind, io_bind.
  destruct (Hm fs) as [Hfs Ht].
  destruct (m fs) as [[fs' t] [a|e]]; simpl in *; [|done].
  destruct (Hk a fs') as [Hfs' Ht'].
  destruct (k a fs') as [[fs'' t'] r]; simpl in *.
  split; [congruence|]. by apply Forall_app.
Qed.

Lemma copy_tasks_dry fs dirs_struct tasks :
  copy_tasks fs dirs_struct true = Ok tasks → Forall dry_coro tasks.
Proof.
  unfold copy_tasks.
  apply (for_each_invariant (Forall dry_coro)); [|constructor].
  intros s inner s' _ Hs.
  apply (for_each_invariant (Forall dry_coro)); [|done].
  intros s2 item s2' _ Hs2.
  apply (for_each_invariant (Forall dry_coro)); [|done].
  intros s3 leaf s3' _ Hs3 H. unfold copy_leaf in H.
  apply bind_Ok in H as (rs & _ & H). apply bind_Ok in H as (md & _ & [= <-]).
  destruct (negb (file_exists fs rs)); [|done].
  apply Forall_app. split; [|by repeat constructor].
  apply Forall_app. split; [done|by repeat constructor].
Qed.

Lemma mod_tasks_dry dirs_struct : Forall dry_coro (mod_tasks dirs_struct true).
Proof.
  unfold mod_tasks. induction (dirs dirs_struct); simpl; by constructor.
Qed.

Lemma copy_code_and_task_files_dry sched dirs_struct :
  harmless (copy_code_and_task_files sched dirs_struct true).
Proof.
  intros fs. unfold copy_code_and_task_files, mbind, io_bind, io_read.
  destruct (copy_tasks fs dirs_struct true) as [tasks|e] eqn:Htasks.
  - destruct (gather_dry sched tasks (copy_tasks_dry _ _ _ Htasks) fs) as [Hfs Ht].
    destruct (gather sched tasks fs) as [[fs' t] r]. by simpl in *.
  - split; [done|constructor].
Qed.

Lemma create_mod_files_dry sched dirs_struct :
  harmless (create_mod_files sched dirs_struct true).
Proof. apply gather_dry, mod_tasks_dry. Qed.

(** The whole driver in dry-run mode. *)
Lemma run_dry {db : UnicodeDB} sched1 sched2 origin_dir dest_dir :
  harmless (run sched1 sched2 origin_dir dest_dir true).
Proof.
  unfold run.
  apply io_bind_harmless; [apply io_read_harmless|]. intros ds.
  apply io_bind_harmless; [by apply io_log_harmless|]. intros _.
  apply io_bind_harmless; [apply copy_code_and_task_files_dry|]. intros _.
  apply create_mod_files_dry.
Qed.

(** C7: in dry-run mode, for every structure, every file system and every
    schedule of the batches, [copy_code_and_task_files] and
    [create_mod_files] leave the file system as it was and make no call
    that creates a directory or opens or writes a file, whether or not
    source files exist and whether or not an exception is raised; the
    same holds of the whole driver. *)
Theorem dry_run_changes_nothing {db : UnicodeDB}
    (sched1 sched2 : list nat) (dirs_struct : DirectoriesStructure)
    (origin_dir dest_dir : Path) (fs : FS) :
  let copied := copy_code_and_task_files sched1 dirs_struct true fs in
  let generated := create_mod_files sched2 dirs_struct true fs in
  let whole := run sched1 sched2 origin_dir dest_dir true fs in
  (copied.1.1 = fs ∧ quiet copied.1.2)
  ∧ (generated.1.1 = fs ∧ quiet generated.1.2)
  ∧ (whole.1.1 = fs ∧ quiet whole.1.2).
Proof.
  simpl. split; [apply copy_code_and_task_files_dry|].
  split; [apply create_mod_files_dry | apply run_dry].
Qed.

(** Outside dry-run mode the same calls do change the file system. *)
Example wet_run_changes_something {db : UnicodeDB} :
  (run [] [] sample_origin sample_destination false (sample_tree true)).1.1
  ≠ sample_tree true.
Proof. intros H. vm_compute in H. discriminate H. Qed.

(** ** C8: a missing source file *)

(** A step of a coroutine other than [i] keeps two batches the same but
    for [i]. *)
Lemma batch_step_same_but i j b1 b2 :
  j ≠ i → same_but i b1 b2 → same_but i (batch_step b1 j) (batch_step b2 j).
Proof.
  intros Hj (Hfs & Hexn & Hpool). unfold batch_step.
  rewrite (Hpool j Hj), Hfs, Hexn.
  destruct (b_pool b2 !! j) as [c|] eqn:Hc; [|done].
  destruct (step (b_fs b2) c) as [[fs' c'] evs]. simpl.
  split; [done|]. split; [done|].
  intros k Hk. cbn [b_pool]. destruct (decide (k = j)) as [->|Hkj].
  - assert (j < length (b_pool b2))%nat as H2 by (by eapply lookup_lt_Some).
    assert (j < length (b_pool b1))%nat as H1.
    { eapply lookup_lt_Some. by rewrite (Hpool j Hj). }
    by rewrite !list_lookup_insert_eq.
  - rewrite !list_lookup_insert_ne by done. by apply Hpool.
Qed.

Lemma run_schedule_same_but i sched b1 b2 :
  i ∉ sched → same_but i b1 b2 →
  same_but i (run_schedule sched b1) (run_schedule sched b2).
Proof.
  unfold run_schedule. revert b1 b2.
  induction sched as [|j sched IH]; intros b1 b2 Hi Hb; simpl; [done|].
  apply not_elem_of_cons in Hi as [Hne Hi].
  apply IH; [done|]. by apply batch_step_same_but.
Qed.

(** C8: when [copy_file] finds that its source does not exist, its one
    step returns without raising, logs the warning, and leaves the file
    system alone (no directory is created, nothing is opened or written);
    in a batch, that step changes neither the file system, nor the state
    of any other coroutine, nor the exception state of the batch, and
    whatever the other coroutines do afterwards they do as if the step
    had not been taken. *)
Theorem copy_file_missing_source
    (b : batch) (i : nat) (source_file dest_file : Path) (dry_run : bool) :
  b_pool b !! i = Some (copy_file source_file dest_file dry_run) →
  file_exists (b_fs b) source_file = false →
  step (b_fs b) (copy_file source_file dest_file dry_run)
    = (b_fs b, Returned, [LogFileNotFound source_file])
  ∧ batch_step b i
    = mkBatch (b_fs b) (<[i := Returned]> (b_pool b))
        (b_trace b ++ [LogFileNotFound source_file]) (b_exn b)
  ∧ (∀ j, j ≠ i → b_pool (batch_step b i) !! j = b_pool b !! j)
  ∧ (∀ sched, i ∉ sched →
       same_but i (run_schedule sched (batch_step b i)) (run_schedule sched b)).
Proof.
  intros Hi Hmissing.
  assert (step (b_fs b) (copy_file source_file dest_file dry_run)
          = (b_fs b, Returned, [LogFileNotFound source_file])) as Hstep.
  { simpl. by rewrite Hmissing. }
  assert (batch_step b i
          = mkBatch (b_fs b) (<[i := Returned]> (b_pool b))
              (b_trace b ++ [LogFileNotFound source_file]) (b_exn b)) as Hb.
  { unfold batch_step. rewrite Hi, Hstep. simpl. by destruct (b_exn b). }
  assert (∀ j, j ≠ i → b_pool (batch_step b i) !! j = b_pool b !! j) as Hothers.
  { intros j Hj. rewrite Hb. simpl. by apply list_lookup_insert_ne. }
  split; [done|]. split; [done|]. split; [done|].
  intros sched Hsched. apply run_schedule_same_but; [done|].
  split; [by rewrite Hb|]. split; [by rewrite Hb|]. exact Hothers.
Qed.

Lemma copy_file_missing_source_witness :
  let b := mkBatch (sample_tree false)
             [copy_file (source_main_file sample_third) (dest_main_file sample_third) false;
              copy_file (source_task_file sample_third) (dest_task_file sample_third) false]
             [] None in
  b_pool b !! 0%nat
    = Some (copy_file (source_main_file sample_third) (dest_main_file sample_third) false)
  ∧ file_exists (b_fs b) (source_main_file sample_third) = false
  ∧ batch_step b 0
    = mkBatch (sample_tree false)
        [Returned;
         copy_file (source_task_file sample_third) (dest_task_file sample_third) false]
        [LogFileNotFound (source_main_file sample_third)] None.
Proof.
  split; [reflexivity|]. split; [reflexivity|].
  exact (proj1 (proj2
    (copy_file_missing_source
       (mkBatch (sample_tree false)
          [copy_file (source_main_file sample_third) (dest_main_file sample_third) false;
           copy_file (source_task_file sample_third) (dest_task_file sample_third) false]
          [] None)
       0 (source_main_file sample_third) (dest_main_file sample_third) false
       eq_refl eq_refl))).
Defined.

(** ** C3: running the pipeline twice *)

(** C3 on a leaf that has [task.md] but no [src/main.rs]: the first run
    copies [task.md] and cannot create the [.rs] file; the origin is left
    as it was; the second run finds no [.rs] destination, so it attempts
    both copies again and writes the [.md] file a second time, besides
    [mod.rs]. *)
Theorem second_run_writes_task_file_again {db : UnicodeDB} :
  let first_run := run [] [] sample_origin sample_destination false (sample_tree false) in
  let fs1 := first_run.1.1 in
  let second_run := run [] [] sample_origin sample_destination false fs1 in
  first_run.2 = Ok tt
  ∧ written_files first_run.1.2
    = [dest_task_file sample_third; dest sample_first // lit "mod.rs"]
  ∧ stat fs1 sample_origin = stat (sample_tree false) sample_origin
  ∧ file_exists fs1 (dest_task_file sample_third) = true
  ∧ file_exists fs1 (dest_main_file sample_third) = false
  ∧ second_run.2 = Ok tt
  ∧ written_files second_run.1.2
    = [dest_task_file sample_third; dest sample_first // lit "mod.rs"].
Proof. vm_compute. repeat split. Qed.

(** When the leaf has both files, the second run writes [mod.rs] only. *)
Example second_run_with_main_file {db : UnicodeDB} :
  let first_run := run [] [] sample_origin sample_destination false (sample_tree true) in
  let second_run := run [] [] sample_origin sample_destination false first_run.1.1 in
  written_files first_run.1.2
  = [dest_main_file sample_third; dest_task_file sample_third;
     dest sample_first // lit "mod.rs"]
  ∧ written_files second_run.1.2 = [dest sample_first // lit "mod.rs"].
Proof. vm_compute. repeat split. Qed.

(** The copy example of the specification: after a run on the sample
    tree, the [.rs] and [.md] destinations hold the contents of
    [src/main.rs] and [task.md]. *)
Example run_copies_both_files {db : UnicodeDB} :
  let fs1 := (run [] [] sample_origin sample_destination false (sample_tree true)).1.1 in
  read_file fs1 (dest_main_file sample_third) = Ok (lit "fn main() {}")
  ∧ read_file fs1 (dest_task_file sample_third) = Ok (lit "Task content")
  ∧ read_file fs1 (dest sample_first // lit "mod.rs")
    = Ok (lit "pub mod second_module {" ++ nl
          ++ lit "    pub mod third_module;" ++ nl ++ lit "}").
Proof. vm_compute. repeat split. Qed.
